(** * SocialNetwork: a graph-based social network model

    Shallow embedding of [SocialNetwork.py].  The class keeps a list of
    people, a list of connections and a [networkx.MultiGraph]; every query
    reads the graph through [graph.degree] or through
    [networkx.all_pairs_shortest_path_length].

    Python values are modelled as follows.
    - a person is a hashable value with decidable equality (a [Countable]
      type [Person]): this is what the graph sees of a person, through
      [==] and [hash];
    - the generators of connections see the people as objects and compare
      them with [is]; they are modelled over a type [Object] on which
      equality is object identity, so that two people of equal value that
      are two objects are two different elements of it;
    - [__init__] is the constructor on people that are their own objects
      (equal people of the list are one object, as are the string literals
      of the default list), [__init__objects] the constructor on any
      objects;
    - [int] is [Z]; a [set] is a [gset]; a [dict] is a [gmap];
    - a [float] is a dyadic number [mant * 2 ^ expo] obtained by rounding
      to 53 significant bits, ties to even (binary64 inside its exponent
      range);
    - an exception is a value of [exception], a call that may raise
      returns a [result]. *)

From stdpp Require Import gmap strings list fin_maps.
From Stdlib Require Import ZArith QArith Qabs Lia Floats.
From Stdlib Require Uint63.

#[local] Open Scope Z_scope.
#[local] Set Warnings "-clear-no-such-hyp".

(** ** Exceptions *)

Inductive exception :=
  | TypeError
  | ZeroDivisionError.

(** The class name Python reports for an exception. *)
Definition exception_name (e : exception) : string :=
  match e with
  | TypeError => "TypeError"
  | ZeroDivisionError => "ZeroDivisionError"
  end.

Definition result (A : Type) : Type := exception + A.
Definition raise {A} (e : exception) : result A := inl e.
Definition ret {A} (a : A) : result A := inr a.

(** An exception raised by a subexpression propagates. *)
Definition bind {A B} (m : result A) (k : A → result B) : result B :=
  match m with
  | inl e => inl e
  | inr a => k a
  end.

Notation "'let!' x := m 'in' k" := (bind m (λ x, k))
  (at level 10, x name, m at level 100, k at level 200, only parsing).

(** ** Floating point: [int / int], [math.floor], [math.ceil], [int()]

    A float is kept as its mantissa and exponent; rounding is to 53
    significant bits, to nearest, ties to even, as binary64 rounds.  The
    exponent is not bounded: overflow and subnormal numbers would need a
    degree sum above [2 ^ 1023] or a node count above [2 ^ 1021]. *)

Module Float.

(** A finite binary floating-point number, [mant * 2 ^ expo]. *)
Record float := mk { mant : Z; expo : Z }.

(** The rational number a float denotes. *)
Definition value (x : float) : Q :=
  if 0 <=? expo x then inject_Z (mant x * 2 ^ expo x)
  else Qmake (mant x) (Z.to_pos (2 ^ (- expo x))).

(** [n / (d * 2^e)] as a fraction of two integers, for either sign of [e]. *)
Definition scaled_num (n e : Z) : Z := if 0 <=? e then n else n * 2 ^ (- e).
Definition scaled_den (d e : Z) : Z := if 0 <=? e then d * 2 ^ e else d.

(** The integer nearest to [n / d] ([0 < d]), ties to the even one. *)
Definition round_half_even (n d : Z) : Z :=
  let q := n / d in
  let r := n mod d in
  if 2 * r <? d then q
  else if d <? 2 * r then q + 1
  else if Z.even q then q else q + 1.

(** The exponent [e] with [2^52 <= (n / d) / 2^e < 2^53] ([0 < n], [0 < d]). *)
Definition exponent (n d : Z) : Z :=
  let e0 := Z.log2 n - Z.log2 d - 52 in
  if 2 ^ 52 <=? scaled_num n e0 / scaled_den d e0 then e0 else e0 - 1.

(** [n / d] rounded to 53 significant bits ([0 <= n], [0 < d]). *)
Definition round (n d : Z) : float :=
  if n =? 0 then mk 0 0
  else let e := exponent n d in
       mk (round_half_even (scaled_num n e) (scaled_den d e)) e.

Definition neg (x : float) : float := mk (- mant x) (expo x).

(** Python's true division of two ints: the correctly rounded quotient,
    [ZeroDivisionError] when the divisor is [0]. *)
Definition truediv (a b : Z) : result float :=
  if b =? 0 then raise ZeroDivisionError
  else
    let x := round (Z.abs a) (Z.abs b) in
    ret (if Z.sgn a * Z.sgn b <? 0 then neg x else x).

(** [float(k)] and the product of two floats. *)
Definition of_int (k : Z) : float :=
  let x := round (Z.abs k) 1 in if k <? 0 then neg x else x.

Definition mul (x y : float) : float :=
  let m := mant x * mant y in
  let e := expo x + expo y in
  let z := round (scaled_num (Z.abs m) (- e)) (scaled_den 1 (- e)) in
  if m <? 0 then neg z else z.

(** [math.floor], [math.ceil] and [int()] of a float. *)
Definition floor (x : float) : Z :=
  if 0 <=? expo x then mant x * 2 ^ expo x else mant x / 2 ^ (- expo x).

Definition ceil (x : float) : Z :=
  if 0 <=? expo x then mant x * 2 ^ expo x else - ((- mant x) / 2 ^ (- expo x)).

Definition trunc (x : float) : Z :=
  if 0 <=? expo x then mant x * 2 ^ expo x else Z.quot (mant x) (2 ^ (- expo x)).


(** Equality of floats is equality of the numbers they denote. *)
Definition eqb (x y : float) : bool := Qeq_bool (value x) (value y).

End Float.

(** ** The random source

    [random.randint(0, 1)] reads the next outcome of the source; the source
    is the stream of the outcomes it will deliver. *)

Definition random_source := nat → Z.

Definition randint (rnd : random_source) : Z * random_source :=
  (rnd 0%nat, λ n, rnd (S n)).

(** ** The people as objects, and the generators of connections

    The two generators compare the people of the list with [is]: the test
    is whether two references are to one object, not whether two values are
    equal.  They are modelled over a type [Object] of references, on which
    equality is object identity: an object listed twice is the same element
    of [Object] twice, and two objects of equal value ([==]) are two
    different elements of [Object].  What an object is worth as a node of
    the graph plays no part in the generators. *)

Section Generators.

Context {Object : Type} `{EqDecision Object}.

(** [i is j]: the two references are to one object. *)
Definition is_ (i j : Object) : bool := bool_decide (i = j).

(** [create_connections_full]: every object of the list with every object
    of the list that is not that very object. *)
Definition create_connections_full (people : list Object)
    (connections : list (Object * Object)) : list (Object * Object) :=
  foldl (λ conns (i : Object),
           foldl (λ conns j, if is_ i j then conns else conns ++ [(i, j)])
                 conns people)
        connections people.

(** The inner loop of [create_connections_random] for the object [i]: the
    objects [js] are scanned in order; one that is [i] itself is skipped
    without a draw; a draw of 0 moves on to the next; any other draw
    appends [(i, j)] and breaks out of the loop. *)
Fixpoint scan_partners (i : Object) (js : list Object)
    (connections : list (Object * Object)) (rnd : random_source)
  : list (Object * Object) * random_source :=
  match js with
  | [] => (connections, rnd)
  | j :: js' =>
      if is_ i j then scan_partners i js' connections rnd
      else
        let '(m, rnd') := randint rnd in
        if m =? 0 then scan_partners i js' connections rnd'
        else (connections ++ [(i, j)], rnd')
  end.

Definition create_connections_random (people : list Object)
    (connections : list (Object * Object)) (rnd : random_source)
  : list (Object * Object) * random_source :=
  foldl (λ st (i : Object), scan_partners i people st.1 st.2) (connections, rnd) people.

End Generators.

(** A reference given by the value of its object and a tag that tells apart
    the objects of equal value: two references are to one object when value
    and tag agree, and are equal ([==]) when the values agree. *)
Definition object (Value : Type) : Type := Value * nat.

Definition value_of {Value : Type} (o : object Value) : Value := o.1.

Section SocialNetwork.

Context `{Countable Person}.

Implicit Types (j n p q u v w : Person).

Definition connection : Type := Person * Person.

(** ** [networkx.MultiGraph]

    The class of the networkx library for undirected graphs that hold
    parallel edges and self-loops.  The library keeps the nodes in
    insertion order and, for every pair of neighbours, the parallel edges
    between them.  The model keeps the nodes in insertion order and the
    edges in insertion order; parallel edges and self-loops are stored like
    any other edge, as the library stores them. *)

Record MultiGraph := { _node : list Person; _edge : list connection }.

Definition MultiGraph_new : MultiGraph := {| _node := []; _edge := [] |}.

(** [G.add_node(n)]: a node already there is left where it is. *)
Definition add_node (G : MultiGraph) n : MultiGraph :=
  if decide (n ∈ _node G) then G
  else {| _node := _node G ++ [n]; _edge := _edge G |}.

Definition add_nodes_from (G : MultiGraph) (nodes : list Person) : MultiGraph :=
  foldl add_node G nodes.

(** [G.add_edge(u, v)]: both end points become nodes, the edge is added
    whatever edges are there already and whether or not [u] is [v]. *)
Definition add_edge (G : MultiGraph) (e : connection) : MultiGraph :=
  let G' := add_node (add_node G e.1) e.2 in
  {| _node := _node G'; _edge := _edge G' ++ [e] |}.

Definition add_edges_from (G : MultiGraph) (ebunch : list connection) : MultiGraph :=
  foldl add_edge G ebunch.

(** [G.adj[v]]: the neighbours of [v], each once. *)
Definition adj (G : MultiGraph) v : list Person :=
  remove_dups
    (omap (λ e : connection,
             if decide (e.1 = v) then Some e.2
             else if decide (e.2 = v) then Some e.1 else None)
          (_edge G)).

(** The degree of a node: the number of edge ends at it, so that a
    self-loop counts twice. *)
Definition degree_of (G : MultiGraph) n : Z :=
  Z.of_nat (length (filter (λ e : connection, e.1 = n) (_edge G)))
  + Z.of_nat (length (filter (λ e : connection, e.2 = n) (_edge G))).

(** [G.degree]: iterating it yields the pairs (node, degree) in node order. *)
Definition degree (G : MultiGraph) : list (Person * Z) :=
  map (λ n, (n, degree_of G n)) (_node G).

(** *** Shortest path lengths

    [single_source_shortest_path_length] is a breadth-first search by
    levels: the nodes of the current level are scanned in order, every
    neighbour not seen yet is recorded with the next level and joins the
    next level.  The search stops when a level is empty. *)

Definition visit (level : nat) (st : gmap Person nat * list Person) w
  : gmap Person nat * list Person :=
  match st.1 !! w with
  | Some _ => st
  | None => (<[w := level]> st.1, st.2 ++ [w])
  end.

Definition scan_level (G : MultiGraph) (level : nat) (seen : gmap Person nat)
    (thislevel : list Person) : gmap Person nat * list Person :=
  foldl (λ st v, foldl (visit level) st (adj G v)) (seen, []) thislevel.

(** The [while nextlevel] loop; [fuel] bounds the number of levels. *)
Fixpoint bfs_levels (fuel : nat) (G : MultiGraph) (level : nat)
    (seen : gmap Person nat) (nextlevel : list Person) : gmap Person nat :=
  match fuel with
  | O => seen
  | S fuel' =>
      match nextlevel with
      | [] => seen
      | _ =>
          let '(seen', nextlevel') := scan_level G (S level) seen nextlevel in
          bfs_levels fuel' G (S level) seen' nextlevel'
      end
  end.

(** A graph of [k] nodes has at most [k] non-empty levels. *)
Definition single_source_shortest_path_length (G : MultiGraph) (source : Person)
  : gmap Person nat :=
  bfs_levels (length (_node G)) G 0 {[source := 0%nat]} [source].

Definition all_pairs_shortest_path_length (G : MultiGraph)
  : list (Person * gmap Person nat) :=
  map (λ n, (n, single_source_shortest_path_length G n)) (_node G).

(** ** The class [SocialNetwork] *)

Record SocialNetwork := {
  people : list Person;
  connections : list connection;
  graph : MultiGraph
}.

(** [populate_graph]: the people become nodes, the connections edges. *)
Definition populate_graph (people : list Person) (connections : list connection)
    (graph : MultiGraph) : MultiGraph :=
  add_edges_from (add_nodes_from graph people) connections.

(** The constructor, on people that are their own objects: an element of
    [people] is at once the object the generators compare with [is] and
    the node the graph compares with [==].  This is the class on every
    list in which equal people are one object, as in a list without
    duplicates and in the string literals of the default list;
    [__init__objects] below is the constructor without that restriction.
    [connections] and [gov] are [None] when the caller leaves them out. *)
Definition __init__ (people : list Person) (connections : option (list connection))
    (gov : option string) (rnd : random_source) : SocialNetwork :=
  let conns :=
    match connections with
    | None =>
        match gov with
        | None => (create_connections_random people [] rnd).1
        | Some g =>
            if String.eqb g "random" then (create_connections_random people [] rnd).1
            else if String.eqb g "full" then create_connections_full people []
            else []
        end
    | Some connections => connections
    end in
  {| people := people;
     connections := conns;
     graph := populate_graph people conns MultiGraph_new |}.

(** The constructor on any list of objects.  The generators run on the
    objects and compare them with [is]; the graph is built on what the
    objects are worth as nodes, [node_of], which is what [==] and [hash]
    see of them.  The record keeps the people and the connections by these
    values. *)
Definition __init__objects {Object : Type} `{EqDecision Object}
    (node_of : Object → Person) (people : list Object)
    (connections : option (list (Object * Object)))
    (gov : option string) (rnd : random_source) : SocialNetwork :=
  let conns :=
    match connections with
    | None =>
        match gov with
        | None => (create_connections_random people [] rnd).1
        | Some g =>
            if String.eqb g "random" then (create_connections_random people [] rnd).1
            else if String.eqb g "full" then create_connections_full people []
            else []
        end
    | Some connections => connections
    end in
  {| people := node_of <$> people;
     connections := prod_map node_of node_of <$> conns;
     graph := populate_graph (node_of <$> people)
                             (prod_map node_of node_of <$> conns) MultiGraph_new |}.

(** ** Queries *)

Implicit Types (self : SocialNetwork).

(** The inner loop of [get_adjacency_with_separation_degree]: the keys of
    [dic] whose value is [degree]. *)
Definition at_separation (dic : gmap Person nat) (degree : Z) : gset Person :=
  map_fold (λ j d (temp : gset Person),
              if decide (Z.of_nat d = degree) then temp ∪ {[j]} else temp)
           ∅ dic.

Definition get_adjacency_with_separation_degree self (degree : Z)
  : gmap Person (gset Person) :=
  foldl (λ adjacency (i : Person * gmap Person nat),
           let temp := at_separation i.2 degree in
           <[i.1 := temp]> adjacency)
        ∅ (all_pairs_shortest_path_length (graph self)).

Definition get_friends self : gmap Person (gset Person) :=
  get_adjacency_with_separation_degree self 1.

Definition get_friends_of_friends self : gmap Person (gset Person) :=
  get_adjacency_with_separation_degree self 2.

(** The first loop of [get_most_popular] and [get_least_popular]: the
    placeholder [person] starts as [None], takes the first pair, and is
    replaced by a later pair when [better] holds of the two degrees. *)
Definition select_person (better : Z → Z → bool) (degrees : list (Person * Z))
  : option (Person * Z) :=
  foldl (λ (person : option (Person * Z)) (i : Person * Z),
           match person with
           | None => Some i
           | Some p => if better i.2 p.2 then Some i else Some p
           end)
        None degrees.

(** The second loop: everybody whose degree equals the placeholder's. *)
Definition add_equals (person : Person * Z) (degrees : list (Person * Z))
    (populars : gset Person) : gset Person :=
  foldl (λ (populars : gset Person) (i : Person * Z),
           if i.2 =? person.2 then populars ∪ {[i.1]} else populars)
        populars degrees.

(** [person[0]] raises [TypeError] when [person] is still [None]. *)
Definition get_most_popular self : result (gset Person) :=
  let populars : gset Person := ∅ in
  match select_person (λ a b, b <? a) (degree (graph self)) with
  | None => raise TypeError
  | Some person =>
      let populars := populars ∪ {[person.1]} in
      ret (add_equals person (degree (graph self)) populars)
  end.

Definition get_least_popular self : result (gset Person) :=
  let unpopulars : gset Person := ∅ in
  match select_person (λ a b, a <? b) (degree (graph self)) with
  | None => raise TypeError
  | Some person =>
      let unpopulars := unpopulars ∪ {[person.1]} in
      ret (add_equals person (degree (graph self)) unpopulars)
  end.

(** What [get_average] returns: an [int] under a rounding governor, a
    [float] otherwise. *)
Inductive number :=
  | Int (k : Z)
  | Flt (x : Float.float).

(** The loop of [get_average]: the sum of the degrees and their count. *)
Definition summation_count (degrees : list (Person * Z)) : Z * Z :=
  foldl (λ (sc : Z * Z) (i : Person * Z), (sc.1 + i.2, sc.2 + 1)) (0, 0) degrees.

Definition get_average self (gov : option string) : result number :=
  let '(summation, count) := summation_count (degree (graph self)) in
  if bool_decide (gov = Some "floor") then
    let! quotient := Float.truediv summation count in
    ret (Int (Float.floor quotient))
  else if bool_decide (gov = Some "ceiling") then
    let! quotient := Float.truediv summation count in
    ret (Int (Float.ceil quotient))
  else if bool_decide (gov = Some "cast") then
    let! quotient := Float.truediv summation count in
    ret (Int (Float.trunc quotient))
  else
    let! quotient := Float.truediv summation count in
    ret (Flt quotient).

(** What [get_more_than_four] returns: a [set], or a [str]. *)
Inductive set_or_str :=
  | Set_ (s : gset Person)
  | Str (s : string).

Definition get_more_than_four self : set_or_str :=
  let populars : gset Person :=
    foldl (λ (populars : gset Person) (i : Person * Z),
             if 4 <? i.2 then populars ∪ {[i.1]} else populars)
          ∅ (degree (graph self)) in
  if (size populars =? 0)%nat then Str "No one has more than four friends"
  else Set_ populars.

End SocialNetwork.

Arguments MultiGraph Person : clear implicits.
Arguments SocialNetwork Person : clear implicits.
Arguments number : clear implicits.
Arguments set_or_str Person {_ _}.

(** ** Networks used as examples *)

(** No random source is consulted when the connections are given. *)
Definition no_draws : random_source := λ _, 0.

(** The network A - B - C. *)
Definition network_abc : SocialNetwork string :=
  __init__ ["A"; "B"; "C"] (Some [("A", "B"); ("B", "C")]) None no_draws.

(** One person connected to itself. *)
Definition network_loop : SocialNetwork string :=
  __init__ ["A"] (Some [("A", "A")]) None no_draws.

(** One person, no connection. *)
Definition network_single : SocialNetwork string :=
  __init__ ["A"] (Some []) None no_draws.

(** Nobody. *)
Definition network_empty : SocialNetwork string :=
  __init__ [] (Some []) None no_draws.


(** Four people, a doubled connection between A and B, and a connection
    from E, who is not among the people. *)
Definition network_parallel : SocialNetwork string :=
  __init__ ["A"; "B"; "C"; "D"] (Some [("A", "B"); ("A", "B"); ("E", "A")])
           None no_draws.

(** Three people, no connections given, and the draws 0, 1, 1, 0, 0, ... *)
Definition network_drawn : SocialNetwork string :=
  __init__ ["A"; "B"; "C"] None None
           (λ k, match k with 1%nat | 2%nat => 1 | _ => 0 end).

(** Two people of equal value, ["Alice" == "Alice"], that are two objects. *)
Definition two_alices : list (object string) := [("Alice", 0%nat); ("Alice", 1%nat)].

(** * Vocabulary of the properties *)

Section Vocabulary.

Context `{Countable Person}.

Implicit Types (G : MultiGraph Person) (p q r s : Person).

(** A graph is well formed when no node is listed twice and both ends of
    every edge are nodes. *)
Definition well_formed G : Prop :=
  NoDup (_node G) ∧ ∀ e, e ∈ _edge G → e.1 ∈ _node G ∧ e.2 ∈ _node G.

(** [walk G k p q]: [q] is reached from [p] along [k] edges. *)
Inductive walk G p : nat → Person → Prop :=
  | walk_here : walk G p 0 p
  | walk_step k q r : walk G p k q → r ∈ adj G q → walk G p (S k) r.

(** [dist G p q d]: the shortest walk from [p] to [q] has [d] edges. *)
Definition dist G p q (d : nat) : Prop :=
  walk G p d q ∧ ∀ k, walk G p k q → (d ≤ k)%nat.

(** [grows level A st st']: from [st] to [st'] exactly the unseen nodes
    satisfying [A] were recorded, at [level], and queued. *)
Definition grows (level : nat) (A : Person → Prop)
    (st st' : gmap Person nat * list Person) : Prop :=
  (∀ q d, st'.1 !! q = Some d
          ↔ st.1 !! q = Some d ∨ (st.1 !! q = None ∧ d = level ∧ A q))
  ∧ (∀ q, q ∈ st'.2 ↔ q ∈ st.2 ∨ (st.1 !! q = None ∧ A q)).

(** The invariant of the [while] loop of the search from [s]: what is
    seen is reached by a walk of the recorded length, whatever a walk of
    at most [level] edges reaches is seen no later than that walk, and the
    pending level holds the nodes recorded at [level]. *)
Record search_inv G s (level : nat) (seen : gmap Person nat)
    (nextlevel : list Person) : Prop := {
  inv_sound : ∀ q d, seen !! q = Some d → walk G s d q ∧ (d ≤ level)%nat;
  inv_complete : ∀ q k, walk G s k q → (k ≤ level)%nat →
                        ∃ d, (d ≤ k)%nat ∧ seen !! q = Some d;
  inv_level : ∀ q, q ∈ nextlevel ↔ seen !! q = Some level
}.

(** The sum of the degrees of the nodes. *)
Definition total_degree G : Z := foldr (λ n acc, degree_of G n + acc) 0 (_node G).

(** The sum of [g] over a list of people. *)
Definition sum_over (g : Person → Z) (l : list Person) : Z :=
  foldr (λ n acc, g n + acc) 0 l.

End Vocabulary.

(** ** The random generator as the specification words it

    As the generators themselves, it is worded over the objects of the
    list: [i ≠ j] says that [i] and [j] are two objects, whatever their
    values. *)

Section GeneratorVocabulary.

Context {Object : Type} `{EqDecision Object}.

Implicit Types (i j : Object) (people : list Object) (rnd : random_source).

(** The candidates of [i] are the objects of the list other than [i]
    itself, in sequence order. *)
Definition candidates i people : list Object := filter (λ j, i ≠ j) people.

(** One coin is flipped per candidate, in order, until a flip succeeds. *)
Fixpoint first_success (partners : list Object) rnd : option Object * random_source :=
  match partners with
  | [] => (None, rnd)
  | j :: partners' =>
      let '(m, rnd') := randint rnd in
      if m =? 0 then first_success partners' rnd' else (Some j, rnd')
  end.

(** What [i] initiates: the connection to the first candidate whose flip
    succeeded, nothing when no flip succeeded. *)
Definition initiated i people rnd : list (Object * Object) * random_source :=
  match first_success (candidates i people) rnd with
  | (Some j, rnd') => ([(i, j)], rnd')
  | (None, rnd') => ([], rnd')
  end.

(** The initiators take their turns one after the other. *)
Fixpoint generate_random (initiators people : list Object) rnd
  : list (Object * Object) * random_source :=
  match initiators with
  | [] => ([], rnd)
  | i :: initiators' =>
      let '(first, rnd') := initiated i people rnd in
      let '(others, rnd'') := generate_random initiators' people rnd' in
      (first ++ others, rnd'')
  end.

(** The connection an object initiates when the first flip succeeds: to
    the first object of the list that is not that very object. *)
Definition first_partner i people : list (Object * Object) :=
  match candidates i people with
  | j :: _ => [(i, j)]
  | [] => []
  end.

End GeneratorVocabulary.

(** * Properties *)

(** * Rounding *)

Section Rounding.

Import Float.

Lemma round_half_even_error (n d : Z) :
  0 < d → 2 * Z.abs (round_half_even n d * d - n) ≤ d.
Proof.
  intros Hd. unfold round_half_even.
  pose proof (Z.div_mod n d ltac:(lia)) as Hn.
  pose proof (Z.mod_pos_bound n d Hd) as Hr.
  destruct (Z.ltb_spec (2 * (n mod d)) d); [nia |].
  destruct (Z.ltb_spec d (2 * (n mod d))); [nia |].
  destruct (Z.even (n / d)); nia.
Qed.

Lemma scaled_den_pos (d e : Z) : 0 < d → 0 < scaled_den d e.
Proof.
  intros Hd. unfold scaled_den. destruct (Z.leb_spec 0 e); [| done].
  pose proof (Z.pow_pos_nonneg 2 e). lia.
Qed.

(** Below the exponent [log2 n - log2 d - 53] the scaled quotient has at
    least 53 bits. *)
Lemma scaled_quotient_large (n d e : Z) :
  0 < n → 0 < d → e ≤ Z.log2 n - Z.log2 d - 53 →
  2 ^ 52 * scaled_den d e ≤ scaled_num n e.
Proof.
  intros Hn Hd He.
  pose proof (Z.log2_spec n Hn) as [Hn1 _].
  pose proof (Z.log2_spec d Hd) as [_ Hd2].
  pose proof (Z.log2_nonneg n). pose proof (Z.log2_nonneg d).
  unfold scaled_den, scaled_num. destruct (Z.leb_spec 0 e).
  - assert (2 ^ 52 * 2 ^ Z.succ (Z.log2 d) * 2 ^ e ≤ 2 ^ Z.log2 n) as Hpow.
    { rewrite <- !Z.pow_add_r by lia. apply Z.pow_le_mono_r; lia. }
    pose proof (Z.pow_pos_nonneg 2 e). nia.
  - assert (2 ^ 52 * 2 ^ Z.succ (Z.log2 d) ≤ 2 ^ Z.log2 n * 2 ^ (- e)) as Hpow.
    { rewrite <- !Z.pow_add_r by lia. apply Z.pow_le_mono_r; lia. }
    pose proof (Z.pow_pos_nonneg 2 (- e)). nia.
Qed.

Lemma exponent_scaled (n d : Z) :
  0 < n → 0 < d →
  2 ^ 52 * scaled_den d (exponent n d) ≤ scaled_num n (exponent n d).
Proof.
  intros Hn Hd. unfold exponent.
  destruct (Z.leb_spec (2 ^ 52)
              (scaled_num n (Z.log2 n - Z.log2 d - 52)
               / scaled_den d (Z.log2 n - Z.log2 d - 52))) as [Hle | _].
  - pose proof (scaled_den_pos d (Z.log2 n - Z.log2 d - 52) Hd) as Hpos.
    pose proof (Z.mul_div_le (scaled_num n (Z.log2 n - Z.log2 d - 52)) _ Hpos).
    nia.
  - apply scaled_quotient_large; lia.
Qed.

(** The rounding error, on the scaled fraction: at most [2 ^ -53] of the
    quotient. *)
Lemma round_error_scaled (n d : Z) :
  0 < n → 0 < d →
  let e := expo (round n d) in
  2 ^ 53 * Z.abs (mant (round n d) * scaled_den d e - scaled_num n e)
  ≤ scaled_num n e.
Proof.
  intros Hn Hd. unfold round. rewrite (proj2 (Z.eqb_neq n 0)) by lia. simpl.
  pose proof (exponent_scaled n d Hn Hd) as Hlarge.
  pose proof (round_half_even_error (scaled_num n (exponent n d))
                (scaled_den d (exponent n d)) (scaled_den_pos _ _ Hd)) as Herr.
  change (2 ^ 53) with (2 * 2 ^ 52). lia.
Qed.




(** Above the exponent [log2 n - log2 d - 52] the scaled quotient has at
    most 53 bits. *)
Lemma scaled_quotient_small (n d e : Z) :
  0 < n → 0 < d → Z.log2 n - Z.log2 d - 52 ≤ e →
  scaled_num n e < 2 ^ 53 * scaled_den d e.
Proof.
  intros Hn Hd He.
  pose proof (Z.log2_spec n Hn) as [_ Hn2].
  pose proof (Z.log2_spec d Hd) as [Hd1 _].
  pose proof (Z.log2_nonneg n). pose proof (Z.log2_nonneg d).
  unfold scaled_den, scaled_num. destruct (Z.leb_spec 0 e).
  - assert (2 ^ Z.succ (Z.log2 n) ≤ 2 ^ 53 * 2 ^ Z.log2 d * 2 ^ e) as Hpow.
    { rewrite <- !Z.pow_add_r by lia. apply Z.pow_le_mono_r; lia. }
    pose proof (Z.pow_pos_nonneg 2 e). nia.
  - assert (2 ^ Z.succ (Z.log2 n) * 2 ^ (- e) ≤ 2 ^ 53 * 2 ^ Z.log2 d) as Hpow.
    { rewrite <- !Z.pow_add_r by lia. apply Z.pow_le_mono_r; lia. }
    pose proof (Z.pow_pos_nonneg 2 (- e)). nia.
Qed.

(** One exponent lower, the scaled quotient doubles. *)
Lemma scaled_pred (n d e : Z) :
  0 < n → 0 < d →
  scaled_num n (e - 1) * scaled_den d e = 2 * scaled_num n e * scaled_den d (e - 1).
Proof.
  intros Hn Hd. unfold scaled_num, scaled_den.
  destruct (Z.leb_spec 0 e), (Z.leb_spec 0 (e - 1)); try lia.
  - replace e with (Z.succ (e - 1)) at 1 by lia. rewrite Z.pow_succ_r by lia. lia.
  - assert (e = 0) as -> by lia. simpl. lia.
  - replace (- (e - 1)) with (Z.succ (- e)) by lia. rewrite Z.pow_succ_r by lia. lia.
Qed.

Lemma exponent_scaled_small (n d : Z) :
  0 < n → 0 < d →
  scaled_num n (exponent n d) < 2 ^ 53 * scaled_den d (exponent n d).
Proof.
  intros Hn Hd. unfold exponent.
  set (e0 := Z.log2 n - Z.log2 d - 52).
  destruct (Z.leb_spec (2 ^ 52) (scaled_num n e0 / scaled_den d e0)) as [_ | Hlt].
  - apply scaled_quotient_small; lia.
  - pose proof (scaled_den_pos d e0 Hd) as Hpos.
    pose proof (scaled_den_pos d (e0 - 1) Hd) as Hpos'.
    pose proof (Z.div_mod (scaled_num n e0) (scaled_den d e0) ltac:(lia)) as Hdiv.
    pose proof (Z.mod_pos_bound (scaled_num n e0) (scaled_den d e0) Hpos) as Hmod.
    assert (scaled_num n e0 < 2 ^ 52 * scaled_den d e0) as Hlt' by nia.
    pose proof (scaled_pred n d e0 Hn Hd) as Hpred.
    change (2 ^ 53) with (2 * 2 ^ 52).
    apply (Z.mul_lt_mono_pos_r (scaled_den d e0)); [done |]. nia.
Qed.

(** The mantissa of a rounded quotient has 53 bits (or is [2 ^ 53], the
    next power of two). *)
Lemma round_mant_bounds (n d : Z) :
  0 < n → 0 < d → 2 ^ 52 ≤ mant (round n d) ≤ 2 ^ 53.
Proof.
  intros Hn Hd. unfold round. rewrite (proj2 (Z.eqb_neq n 0)) by lia. simpl.
  pose proof (exponent_scaled n d Hn Hd) as Hlarge.
  pose proof (exponent_scaled_small n d Hn Hd) as Hsmall.
  pose proof (scaled_den_pos d (exponent n d) Hd) as Hpos.
  set (N := scaled_num n (exponent n d)) in *.
  set (D := scaled_den d (exponent n d)) in *.
  assert (2 ^ 52 ≤ N / D) by (apply Z.div_le_lower_bound; lia).
  assert (N / D < 2 ^ 53) by (apply Z.div_lt_upper_bound; lia).
  unfold round_half_even.
  repeat match goal with |- context [if ?b then _ else _] => destruct b end; lia.
Qed.

Lemma truediv_nonneg (a b : Z) : 0 ≤ a → 0 < b → truediv a b = ret (round a b).
Proof.
  intros Ha Hb. unfold truediv.
  rewrite (proj2 (Z.eqb_neq b 0)) by lia.
  rewrite (Z.abs_eq a), (Z.abs_eq b) by lia.
  rewrite (proj2 (Z.ltb_ge _ _)); [done |].
  rewrite (Z.sgn_pos b) by done. pose proof (Z.sgn_nonneg a). lia.
Qed.

(** The model agrees with the binary64 division and multiplication of the
    kernel on the quotients used below. *)
Example round_4_3_binary64 :
  Prim2SF (PrimFloat.div (PrimFloat.of_uint63 (Uint63.of_Z 4)) (PrimFloat.of_uint63 (Uint63.of_Z 3)))
  = S754_finite false (Z.to_pos (mant (round 4 3))) (expo (round 4 3)).
Proof. vm_compute. reflexivity. Qed.

Example round_2_49_binary64 :
  Prim2SF (PrimFloat.div (PrimFloat.of_uint63 (Uint63.of_Z 2)) (PrimFloat.of_uint63 (Uint63.of_Z 49)))
  = S754_finite false (Z.to_pos (mant (round 2 49))) (expo (round 2 49)).
Proof. vm_compute. reflexivity. Qed.

Example mul_2_49_49_binary64 :
  Prim2SF (PrimFloat.mul
             (PrimFloat.div (PrimFloat.of_uint63 (Uint63.of_Z 2)) (PrimFloat.of_uint63 (Uint63.of_Z 49)))
             (PrimFloat.of_uint63 (Uint63.of_Z 49)))
  = S754_finite false (Z.to_pos (mant (mul (round 2 49) (of_int 49))))
                (expo (mul (round 2 49) (of_int 49))).
Proof. vm_compute. reflexivity. Qed.

End Rounding.


Section Construction.

Context `{Countable Person}.

Implicit Types (G : MultiGraph Person) (p q n : Person).

Lemma add_node_edge G n : _edge (add_node G n) = _edge G.
Proof. unfold add_node. by case_decide. Qed.

Lemma elem_of_add_node G n p :
  p ∈ _node (add_node G n) ↔ p ∈ _node G ∨ p = n.
Proof.
  unfold add_node. case_decide; simpl.
  - split; [by left | intros [? | ->]; done].
  - rewrite elem_of_app, list_elem_of_singleton. done.
Qed.

Lemma add_node_NoDup G n : NoDup (_node G) → NoDup (_node (add_node G n)).
Proof.
  intros Hnd. unfold add_node. case_decide; simpl; [done |].
  apply NoDup_app. split_and!; [done | | apply NoDup_singleton].
  intros x Hx ->%list_elem_of_singleton. done.
Qed.

Lemma add_node_well_formed G n : well_formed G → well_formed (add_node G n).
Proof.
  intros [Hnd Hed]. split; [by apply add_node_NoDup |].
  intros e. rewrite add_node_edge, !elem_of_add_node. naive_solver.
Qed.

Lemma add_nodes_from_edge G nodes : _edge (add_nodes_from G nodes) = _edge G.
Proof.
  revert G. induction nodes as [| n nodes IH]; intros G; simpl; [done |].
  unfold add_nodes_from in *. simpl. by rewrite IH, add_node_edge.
Qed.

Lemma elem_of_add_nodes_from G nodes p :
  p ∈ _node (add_nodes_from G nodes) ↔ p ∈ _node G ∨ p ∈ nodes.
Proof.
  revert G. induction nodes as [| n nodes IH]; intros G.
  - simpl. rewrite elem_of_nil. tauto.
  - unfold add_nodes_from in *. simpl.
    rewrite IH, elem_of_add_node, elem_of_cons. tauto.
Qed.

Lemma add_nodes_from_well_formed G nodes :
  well_formed G → well_formed (add_nodes_from G nodes).
Proof.
  revert G. induction nodes as [| n nodes IH]; intros G HG; [done |].
  apply IH. by apply add_node_well_formed.
Qed.

Lemma add_edge_edge G e : _edge (add_edge G e) = _edge G ++ [e].
Proof. unfold add_edge. simpl. by rewrite !add_node_edge. Qed.

Lemma elem_of_add_edge G e p :
  p ∈ _node (add_edge G e) ↔ p ∈ _node G ∨ p = e.1 ∨ p = e.2.
Proof. unfold add_edge. simpl. rewrite !elem_of_add_node. tauto. Qed.

Lemma add_edge_well_formed G e : well_formed G → well_formed (add_edge G e).
Proof.
  intros HG.
  destruct (add_node_well_formed _ e.2 (add_node_well_formed _ e.1 HG))
    as [Hnd Hed].
  split; [done |].
  intros e'. rewrite add_edge_edge, elem_of_app, list_elem_of_singleton.
  rewrite !elem_of_add_edge. intros [He' | ->]; [| tauto].
  destruct HG as [_ HG]. destruct (HG e' He'). tauto.
Qed.

Lemma add_edges_from_edge G ebunch :
  _edge (add_edges_from G ebunch) = _edge G ++ ebunch.
Proof.
  revert G. induction ebunch as [| e ebunch IH]; intros G.
  - simpl. by rewrite app_nil_r.
  - unfold add_edges_from in *. simpl.
    rewrite IH, add_edge_edge, <- app_assoc. done.
Qed.

Lemma elem_of_add_edges_from G ebunch p :
  p ∈ _node (add_edges_from G ebunch)
  ↔ p ∈ _node G ∨ ∃ e, e ∈ ebunch ∧ (p = e.1 ∨ p = e.2).
Proof.
  revert G. induction ebunch as [| e ebunch IH]; intros G.
  - simpl. split; [by left |]. intros [? | (e & He%elem_of_nil & _)]; done.
  - unfold add_edges_from in *. simpl. rewrite IH, elem_of_add_edge.
    setoid_rewrite elem_of_cons. naive_solver.
Qed.

Lemma add_edges_from_well_formed G ebunch :
  well_formed G → well_formed (add_edges_from G ebunch).
Proof.
  revert G. induction ebunch as [| e ebunch IH]; intros G HG; [done |].
  apply IH. by apply add_edge_well_formed.
Qed.

Lemma MultiGraph_new_well_formed : well_formed (MultiGraph_new (Person := Person)).
Proof.
  split; [apply NoDup_nil_2 |]. intros e He%elem_of_nil. done.
Qed.

(** What [populate_graph] builds on the fresh graph of the constructor. *)
Lemma populate_graph_edge (people : list Person) connections :
  _edge (populate_graph people connections MultiGraph_new) = connections.
Proof.
  unfold populate_graph. by rewrite add_edges_from_edge, add_nodes_from_edge.
Qed.

Lemma elem_of_populate_graph (people : list Person) connections p :
  p ∈ _node (populate_graph people connections MultiGraph_new)
  ↔ p ∈ people ∨ ∃ e, e ∈ connections ∧ (p = e.1 ∨ p = e.2).
Proof.
  unfold populate_graph.
  rewrite elem_of_add_edges_from, elem_of_add_nodes_from. simpl.
  rewrite elem_of_nil. tauto.
Qed.

Lemma populate_graph_well_formed (people : list Person) connections :
  well_formed (populate_graph people connections MultiGraph_new).
Proof.
  apply add_edges_from_well_formed, add_nodes_from_well_formed,
    MultiGraph_new_well_formed.
Qed.

Lemma init_well_formed (people : list Person) connections gov rnd :
  well_formed (graph (__init__ people connections gov rnd)).
Proof. apply populate_graph_well_formed. Qed.

End Construction.

(** ** Walks and distances *)

Section Distance.

Context `{Countable Person}.

Implicit Types (G : MultiGraph Person) (p q r s v w : Person).

Lemma elem_of_adj G v w :
  w ∈ adj G v ↔ (v, w) ∈ _edge G ∨ (w, v) ∈ _edge G.
Proof.
  unfold adj. rewrite elem_of_remove_dups, list_elem_of_omap. split.
  - intros ([a b] & He & Hw). simpl in Hw.
    repeat case_decide; simplify_eq; auto.
  - intros [He | He].
    + exists (v, w). split; [done |]. simpl. by rewrite decide_True.
    + exists (w, v). split; [done |]. simpl.
      case_decide; [by subst |]. by rewrite decide_True.
Qed.

Lemma adj_sym G v w : w ∈ adj G v ↔ v ∈ adj G w.
Proof. rewrite !elem_of_adj. tauto. Qed.

Lemma adj_node G v w : well_formed G → w ∈ adj G v → w ∈ _node G.
Proof.
  intros [_ HG]. rewrite elem_of_adj.
  intros [He | He]; destruct (HG _ He); done.
Qed.

Lemma walk_front G k p q r : q ∈ adj G p → walk G q k r → walk G p (S k) r.
Proof.
  intros Hpq Hw. induction Hw as [| k r t _ IH Ht].
  - eapply walk_step; [apply walk_here | done].
  - eapply walk_step; [by apply IH | done].
Qed.

Lemma walk_sym G k p q : walk G p k q → walk G q k p.
Proof.
  induction 1 as [| k q r _ IH Hr]; [apply walk_here |].
  eapply walk_front; [by apply adj_sym | done].
Qed.

Lemma walk_zero G p q : walk G p 0 q → q = p.
Proof. by inversion 1. Qed.

Lemma walk_node G k s q : well_formed G → s ∈ _node G → walk G s k q → q ∈ _node G.
Proof.
  intros HG Hs. induction 1 as [| k q r _ _ Hr]; [done |].
  by eapply adj_node.
Qed.

Lemma dist_sym G p q d : dist G p q d → dist G q p d.
Proof.
  intros [Hw Hmin]. split; [by apply walk_sym |].
  intros k Hk. by apply Hmin, walk_sym.
Qed.

Lemma dist_unique G p q d d' : dist G p q d → dist G p q d' → d = d'.
Proof.
  intros [Hw Hmin] [Hw' Hmin'].
  pose proof (Hmin _ Hw'). pose proof (Hmin' _ Hw). lia.
Qed.

Lemma dist_here G p : dist G p p 0.
Proof. split; [apply walk_here | intros; lia]. Qed.

Lemma dist_zero G p q : dist G p q 0 → q = p.
Proof. intros [Hw _]. by eapply walk_zero. Qed.

(** *** The breadth-first search computes the distances *)

Section Search.

Variables (G : MultiGraph Person) (level : nat).

Lemma grows_refl (A : Person → Prop) st : (∀ q, ¬ A q) → grows level A st st.
Proof. intros HA. split; intros q; [intros d |]; naive_solver. Qed.

Lemma grows_trans (A B C : Person → Prop) st st' st'' :
  (∀ q, C q ↔ A q ∨ B q) →
  grows level A st st' → grows level B st' st'' → grows level C st st''.
Proof.
  intros HC [HA1 HA2] [HB1 HB2]. split.
  - intros q d. rewrite HB1, HC. split.
    + intros [Hq | (Hq & -> & HBq)].
      * apply HA1 in Hq. naive_solver.
      * right. split_and!; [| done | by right].
        destruct (st.1 !! q) as [d |] eqn:Hst; [| done].
        rewrite (proj2 (HA1 q d)) in Hq; [done | by left].
    + intros [Hq | (Hq & -> & HAB)].
      * left. apply HA1. by left.
      * destruct (st'.1 !! q) as [d |] eqn:Hst'.
        -- left. apply HA1 in Hst'. naive_solver.
        -- destruct HAB as [HAq | HBq]; [| by right].
           rewrite (proj2 (HA1 q level)) in Hst'; [done | by right].
  - intros q. rewrite HB2, HA2, HC. split.
    + intros [[Hq | Hq] | (Hq & HBq)]; [by left | naive_solver |].
      right. split; [| by right].
      destruct (st.1 !! q) as [d |] eqn:Hst; [| done].
      rewrite (proj2 (HA1 q d)) in Hq; [done | by left].
    + intros [Hq | (Hq & HAB)]; [by left; left |].
      destruct (st'.1 !! q) as [d |] eqn:Hst'.
      * apply HA1 in Hst'. left. right. naive_solver.
      * destruct HAB as [HAq | HBq]; [| by right].
        rewrite (proj2 (HA1 q level)) in Hst'; [done | by right].
Qed.

Lemma visit_grows st w : grows level (λ q, q = w) st (visit level st w).
Proof.
  unfold visit. destruct (st.1 !! w) as [d |] eqn:Hw; simpl.
  - split; intros q; [intros d' |]; naive_solver.
  - split; intros q; [intros d' |]; simpl.
    + rewrite lookup_insert. case_decide; naive_solver.
    + rewrite elem_of_app, list_elem_of_singleton. naive_solver.
Qed.

Lemma visits_grow ws st : grows level (λ q, q ∈ ws) st (foldl (visit level) st ws).
Proof.
  revert st. induction ws as [| w ws IH]; intros st; simpl.
  - apply grows_refl. intros q. apply not_elem_of_nil.
  - eapply grows_trans; [| apply (visit_grows st w) | apply IH].
    intros q. by rewrite elem_of_cons.
Qed.

Lemma scan_level_grows vs st :
  grows level (λ q, ∃ v, v ∈ vs ∧ q ∈ adj G v) st
        (foldl (λ st v, foldl (visit level) st (adj G v)) st vs).
Proof.
  revert st. induction vs as [| v vs IH]; intros st; simpl.
  - apply grows_refl. intros q (v & Hv%elem_of_nil & _). done.
  - eapply grows_trans; [| apply (visits_grow (adj G v) st) | apply IH].
    intros q. setoid_rewrite elem_of_cons. naive_solver.
Qed.

End Search.

Lemma search_inv_init G s : search_inv G s 0 {[s := 0%nat]} [s].
Proof.
  split.
  - intros q d [<- <-]%lookup_singleton_Some. split; [apply walk_here | done].
  - intros q k Hw Hk. assert (k = 0%nat) as -> by lia.
    apply walk_zero in Hw as ->. exists 0%nat. by rewrite lookup_singleton_eq.
  - intros q. rewrite list_elem_of_singleton, lookup_singleton_Some. naive_solver.
Qed.

Lemma search_inv_step G s level seen nextlevel seen' nextlevel' :
  search_inv G s level seen nextlevel →
  scan_level G (S level) seen nextlevel = (seen', nextlevel') →
  search_inv G s (S level) seen' nextlevel'.
Proof.
  intros [Hsound Hcomplete Hlevel] Hscan.
  pose proof (scan_level_grows G (S level) nextlevel (seen, [])) as [Hseen Hnext].
  unfold scan_level in Hscan. rewrite Hscan in Hseen, Hnext. simpl in *.
  split.
  - intros q d [Hq | (Hq & -> & v & Hv & Hqv)]%Hseen.
    + destruct (Hsound _ _ Hq). split; [done | lia].
    + split; [| done]. apply Hlevel, Hsound in Hv as [Hv _].
      by eapply walk_step.
  - intros q k Hw Hk.
    destruct (decide (k ≤ level)%nat) as [Hle | Hgt].
    { destruct (Hcomplete _ _ Hw Hle) as (d & Hd & Hq).
      exists d. split; [done |]. apply Hseen. by left. }
    assert (k = S level) as -> by lia.
    destruct (seen !! q) as [d |] eqn:Hq.
    { exists d. destruct (Hsound _ _ Hq). split; [lia |]. apply Hseen. by left. }
    exists (S level). split; [done |]. apply Hseen. right. split_and!; [done.. |].
    inversion Hw as [| k r q' Hr Hadj]; subst.
    exists r. split; [| done]. apply Hlevel.
    destruct (Hcomplete _ _ Hr (Nat.le_refl _)) as (d & Hd & Hsr).
    destruct (decide (d = level)) as [-> | Hne]; [done |].
    destruct (Hsound _ _ Hsr) as [Hwr _].
    destruct (Hcomplete q (S d) (walk_step _ _ _ _ _ Hwr Hadj)) as (d' & _ & Hq');
      [lia | congruence].
  - intros q. rewrite Hnext, Hseen. split.
    + intros [[]%elem_of_nil | (Hq & Hv)]. by right.
    + intros [Hq | (Hq & _ & Hv)]; [| by right].
      destruct (Hsound _ _ Hq). lia.
Qed.

(** Once a level is empty, every reachable node has been seen. *)
Lemma search_inv_done G s level seen q k :
  search_inv G s level seen [] → walk G s k q →
  ∃ d, (d ≤ k)%nat ∧ seen !! q = Some d.
Proof.
  intros [Hsound Hcomplete Hlevel]. induction 1 as [| k r q Hr IH Hadj].
  - apply Hcomplete; [apply walk_here | lia].
  - destruct IH as (d & Hd & Hsr). destruct (Hsound _ _ Hsr) as [Hwr Hle].
    assert (d ≠ level).
    { intros ->. eapply elem_of_nil, Hlevel, Hsr. }
    destruct (Hcomplete q (S d) (walk_step _ _ _ _ _ Hwr Hadj)) as (d' & ? & Hq);
      [lia |].
    exists d'. split; [lia | done].
Qed.

Lemma search_inv_size G s level seen nextlevel :
  well_formed G → s ∈ _node G → search_inv G s level seen nextlevel →
  (size seen ≤ length (_node G))%nat.
Proof.
  intros HG Hs [Hsound _ _].
  rewrite <- size_dom, <- (size_list_to_set (C := gset Person) (_node G)) by apply HG.
  apply subseteq_size. intros q [d Hq]%elem_of_dom.
  apply elem_of_list_to_set. destruct (Hsound _ _ Hq) as [Hw _].
  by eapply walk_node.
Qed.

Lemma scan_level_size G level seen nextlevel seen' nextlevel' :
  scan_level G level seen nextlevel = (seen', nextlevel') →
  nextlevel' ≠ [] → (size seen < size seen')%nat.
Proof.
  intros Hscan Hne.
  pose proof (scan_level_grows G level nextlevel (seen, [])) as [Hseen Hnext].
  unfold scan_level in Hscan. rewrite Hscan in Hseen, Hnext. simpl in *.
  rewrite <- !size_dom. apply subset_size.
  destruct nextlevel' as [| q ?]; [done |].
  destruct (proj1 (Hnext q)) as [[]%elem_of_nil | (Hq & Hv)]; [left |].
  split.
  - intros r [d Hr]%elem_of_dom. apply elem_of_dom. exists d. apply Hseen. by left.
  - intros Hsub. assert (q ∈ dom seen) as [d Hd]%elem_of_dom; [| congruence].
    apply Hsub, elem_of_dom. exists level. apply Hseen. by right.
Qed.

Lemma bfs_levels_spec G s fuel level seen nextlevel :
  well_formed G → s ∈ _node G →
  search_inv G s level seen nextlevel →
  (nextlevel ≠ [] → length (_node G) + 1 ≤ fuel + size seen)%nat →
  let dic := bfs_levels fuel G level seen nextlevel in
  (∀ q d, dic !! q = Some d → walk G s d q)
  ∧ (∀ q k, walk G s k q → ∃ d, (d ≤ k)%nat ∧ dic !! q = Some d).
Proof.
  intros HG Hs. revert level seen nextlevel.
  induction fuel as [| fuel IH]; intros level seen nextlevel Hinv Hfuel; simpl.
  - assert (nextlevel = []) as ->.
    { destruct nextlevel; [done |].
      pose proof (search_inv_size _ _ _ _ _ HG Hs Hinv).
      specialize (Hfuel ltac:(done)). lia. }
    split; [intros q d Hq; by apply Hinv |].
    intros q k. by eapply search_inv_done.
  - destruct nextlevel as [| v vs].
    { split; [intros q d Hq; by apply Hinv |].
      intros q k. by eapply search_inv_done. }
    destruct (scan_level G (S level) seen (v :: vs)) as [seen' nextlevel'] eqn:Hscan.
    apply IH; [by eapply search_inv_step |].
    intros Hne. pose proof (scan_level_size _ _ _ _ _ _ Hscan Hne).
    specialize (Hfuel ltac:(done)). lia.
Qed.

(** [single_source_shortest_path_length] maps exactly the nodes reachable
    from the source, each to its distance. *)
Lemma single_source_shortest_path_length_spec G s q d :
  well_formed G → s ∈ _node G →
  single_source_shortest_path_length G s !! q = Some d ↔ dist G s q d.
Proof.
  intros HG Hs.
  destruct (bfs_levels_spec G s (length (_node G)) 0 {[s := 0%nat]} [s] HG Hs
              (search_inv_init G s)) as [Hsound Hcomplete].
  { intros _. rewrite map_size_singleton. lia. }
  fold (single_source_shortest_path_length G s) in Hsound, Hcomplete.
  split.
  - intros Hq. split; [by apply Hsound |].
    intros k Hk. destruct (Hcomplete _ _ Hk) as (d' & ? & Hq'). congruence.
  - intros [Hw Hmin]. destruct (Hcomplete _ _ Hw) as (d' & Hle & Hq').
    pose proof (Hmin _ (Hsound _ _ Hq')). by replace d with d' by lia.
Qed.

Lemma shortest_path_length_sym G p q d :
  well_formed G → p ∈ _node G → q ∈ _node G →
  single_source_shortest_path_length G p !! q = Some d
  ↔ single_source_shortest_path_length G q !! p = Some d.
Proof.
  intros HG Hp Hq. rewrite !single_source_shortest_path_length_spec by done.
  split; apply dist_sym.
Qed.

End Distance.

(** ** Adjacency by degree of separation *)

Section Adjacency.

Context `{Countable Person}.

Implicit Types (self : SocialNetwork Person) (p q : Person).

Lemma elem_of_at_separation (dic : gmap Person nat) (degree : Z) q :
  q ∈ at_separation dic degree ↔ ∃ d, dic !! q = Some d ∧ Z.of_nat d = degree.
Proof.
  unfold at_separation.
  apply (map_fold_weak_ind
           (λ (temp : gset Person) (m : gmap Person nat),
              q ∈ temp ↔ ∃ d, m !! q = Some d ∧ Z.of_nat d = degree)).
  - rewrite elem_of_empty. split; [done |].
    intros (d & Hd & _). by rewrite lookup_empty in Hd.
  - intros j x m temp Hj IH.
    setoid_rewrite lookup_insert_Some.
    case_decide; [rewrite elem_of_union, elem_of_singleton |]; rewrite IH.
    + split; [| naive_solver].
      intros [(d & Hd & Hdeg) | ->]; [| naive_solver].
      exists d. split; [| done]. right. split; [congruence | done].
    + split; [| naive_solver].
      intros (d & Hd & Hdeg). exists d. split; [| done].
      right. split; [congruence | done].
Qed.

(** The outer loop: one entry per node, the last update of a key wins. *)
Lemma adjacency_fold_lookup (degree : Z) (f : Person → gmap Person nat)
    (nodes : list Person) (adjacency : gmap Person (gset Person)) p :
  foldl (λ adjacency (i : Person * gmap Person nat),
           <[i.1 := at_separation i.2 degree]> adjacency)
        adjacency (map (λ n, (n, f n)) nodes) !! p
  = if decide (p ∈ nodes) then Some (at_separation (f p) degree)
    else adjacency !! p.
Proof.
  revert adjacency.
  induction nodes as [| n nodes IH]; intros adjacency; cbn [foldl map].
  - by rewrite decide_False by apply not_elem_of_nil.
  - rewrite IH. destruct (decide (p ∈ nodes)) as [Hp | Hp].
    + by rewrite decide_True by (by right).
    + cbn [fst snd]. rewrite lookup_insert.
      destruct (decide (n = p)) as [-> | Hne].
      * by rewrite decide_True by left.
      * rewrite decide_False; [done |]. by intros [-> | ?]%elem_of_cons.
Qed.

Lemma get_adjacency_lookup self (degree : Z) p :
  get_adjacency_with_separation_degree self degree !! p
  = if decide (p ∈ _node (graph self))
    then Some (at_separation
                 (single_source_shortest_path_length (graph self) p) degree)
    else None.
Proof.
  unfold get_adjacency_with_separation_degree, all_pairs_shortest_path_length.
  by rewrite adjacency_fold_lookup, lookup_empty.
Qed.

Lemma get_adjacency_dom self (degree : Z) :
  dom (get_adjacency_with_separation_degree self degree)
  = list_to_set (_node (graph self)).
Proof.
  apply set_eq. intros p.
  rewrite elem_of_dom, elem_of_list_to_set, get_adjacency_lookup.
  case_decide; [by split; eauto |]. split; [by intros [? ?] | done].
Qed.

(** Membership in an entry, in terms of distance. *)
Lemma get_adjacency_dist self (degree : Z) p q (temp : gset Person) :
  well_formed (graph self) →
  get_adjacency_with_separation_degree self degree !! p = Some temp →
  q ∈ temp ↔ ∃ d, dist (graph self) p q d ∧ Z.of_nat d = degree.
Proof.
  intros HG. rewrite get_adjacency_lookup.
  case_decide as Hp; [| done]. intros [= <-].
  rewrite elem_of_at_separation.
  by setoid_rewrite single_source_shortest_path_length_spec.
Qed.

End Adjacency.

(** * The claims about adjacency by separation *)

Section AdjacencyClaims.

Context `{Countable Person}.

Variables (people : list Person) (connections : option (list (connection (Person := Person))))
          (gov : option string) (rnd : random_source).

Let self := __init__ people connections gov rnd.

(** C8: for every graph, the keys of [get_friends] are exactly the nodes
    of the graph; the value of a key holds exactly the nodes at distance
    1 from it, so that a node with nobody at distance 1 is a key whose
    value is the empty set; and no node is in its own set of friends. *)
Theorem get_friends_keys_are_nodes :
  dom (get_friends self) = list_to_set (_node (graph self))
  ∧ ∀ p (temp : gset Person),
      get_friends self !! p = Some temp →
      (∀ q, q ∈ temp ↔ dist (graph self) p q 1)
      ∧ (temp = ∅ ↔ ∀ q, ¬ dist (graph self) p q 1)
      ∧ p ∉ temp.
Proof.
  split; [apply get_adjacency_dom |].
  intros p temp Hp.
  assert (∀ q, q ∈ temp ↔ dist (graph self) p q 1) as Htemp.
  { intros q. unfold get_friends in Hp.
    rewrite (get_adjacency_dist _ _ _ _ _ (init_well_formed _ _ _ _) Hp).
    split; [| by exists 1%nat].
    intros (d & Hd & Hone). by replace 1%nat with d by lia. }
  split_and!; [done | |].
  - split.
    + intros -> q Hq%Htemp. by apply elem_of_empty in Hq.
    + intros Hno. apply set_eq. intros q. rewrite Htemp, elem_of_empty.
      split; [apply Hno | done].
  - intros Hq%Htemp. pose proof (dist_unique _ _ _ _ _ Hq (dist_here _ _)). done.
Qed.

(** C9: for every graph, [get_adjacency_with_separation_degree(0)] has
    every node as a key and maps it to the singleton set of that node. *)
Theorem get_adjacency_zero_singleton :
  dom (get_adjacency_with_separation_degree self 0) = list_to_set (_node (graph self))
  ∧ ∀ p (temp : gset Person),
      get_adjacency_with_separation_degree self 0 !! p = Some temp → temp = {[p]}.
Proof.
  split; [apply get_adjacency_dom |].
  intros p temp Hp. apply set_eq. intros q.
  rewrite (get_adjacency_dist _ _ _ _ _ (init_well_formed _ _ _ _) Hp).
  rewrite elem_of_singleton. split.
  - intros (d & Hd & Hzero). assert (d = 0%nat) as -> by lia.
    by eapply dist_zero.
  - intros ->. exists 0%nat. split; [apply dist_here | done].
Qed.

(** C10: for every graph, every integer [degree] and every two nodes [p]
    and [q], [q] is in the entry of [p] in
    [get_adjacency_with_separation_degree(degree)] exactly when [p] is in
    the entry of [q]. *)
Theorem get_adjacency_symmetric (degree : Z) p q (temp_p temp_q : gset Person) :
  get_adjacency_with_separation_degree self degree !! p = Some temp_p →
  get_adjacency_with_separation_degree self degree !! q = Some temp_q →
  q ∈ temp_p ↔ p ∈ temp_q.
Proof.
  intros Hp Hq.
  rewrite (get_adjacency_dist _ _ _ _ _ (init_well_formed _ _ _ _) Hp).
  rewrite (get_adjacency_dist _ _ _ _ _ (init_well_formed _ _ _ _) Hq).
  split; intros (d & Hd & Hdeg); exists d; (split; [by apply dist_sym | done]).
Qed.

End AdjacencyClaims.

(** C10 at the nodes A and B of the network A - B - C, for one degree of
    separation. *)
Lemma get_adjacency_symmetric_witness :
  "B" ∈ ({["B"]} : gset string) ↔ "A" ∈ ({["A"; "C"]} : gset string).
Proof.
  apply (get_adjacency_symmetric ["A"; "B"; "C"] (Some [("A", "B"); ("B", "C")])
           None no_draws 1 "A" "B"); vm_compute; reflexivity.
Defined.

(** ** The loops over [graph.degree] *)

Section Degrees.

Context `{Countable Person}.

Implicit Types (G : MultiGraph Person) (p q n : Person) (i : Person * Z).

Lemma elem_of_degree G i :
  i ∈ degree G ↔ i.1 ∈ _node G ∧ i.2 = degree_of G i.1.
Proof.
  unfold degree. rewrite list_elem_of_fmap. destruct i as [n d]. simpl. split.
  - intros (n' & [= -> ->] & Hn). done.
  - intros [Hn ->]. by exists n.
Qed.

Lemma degree_nil G : degree G = [] ↔ _node G = [].
Proof. unfold degree. split; [apply fmap_nil_inv | by intros ->]. Qed.

Lemma degree_of_nonneg G n : 0 ≤ degree_of G n.
Proof. unfold degree_of. lia. Qed.

(** *** The placeholder of [get_most_popular] and [get_least_popular] *)

Section Select.

Variables (better : Z → Z → bool) (le : Z → Z → Prop).

Hypothesis le_refl : ∀ a, le a a.
Hypothesis le_trans : ∀ a b c, le a b → le b c → le a c.
Hypothesis better_true : ∀ a b, better a b = true → le b a.
Hypothesis better_false : ∀ a b, better a b = false → le a b.

Let step (person : option (Person * Z)) (i : Person * Z) : option (Person * Z) :=
  match person with
  | None => Some i
  | Some p => if better i.2 p.2 then Some i else Some p
  end.

Lemma select_from_some (degrees : list (Person * Z)) (person : Person * Z) :
  ∃ person', foldl step (Some person) degrees = Some person'
    ∧ (person' = person ∨ person' ∈ degrees)
    ∧ le person.2 person'.2
    ∧ ∀ i, i ∈ degrees → le i.2 person'.2.
Proof using le_refl le_trans better_true better_false.
  revert person. induction degrees as [| i degrees IH]; intros person; simpl.
  - exists person. split_and!; [done | by left | done |].
    intros i Hi%elem_of_nil. done.
  - destruct (better i.2 person.2) eqn:Hb.
    + destruct (IH i) as (person' & -> & Hin & Hle & Hall).
      exists person'. split_and!; [done | | |].
      * right. destruct Hin as [-> | ?]; [left | by right].
      * eapply le_trans; [by apply better_true | done].
      * intros i' [-> | Hi']%elem_of_cons; [done | by apply Hall].
    + destruct (IH person) as (person' & -> & Hin & Hle & Hall).
      exists person'. split_and!; [done | | done |].
      * destruct Hin as [-> | ?]; [by left | by right; right].
      * intros i' [-> | Hi']%elem_of_cons; [| by apply Hall].
        eapply le_trans; [by apply better_false | done].
Qed.

Lemma select_person_spec (degrees : list (Person * Z)) :
  match select_person better degrees with
  | None => degrees = []
  | Some person => person ∈ degrees ∧ ∀ i, i ∈ degrees → le i.2 person.2
  end.
Proof using le_refl le_trans better_true better_false.
  unfold select_person. destruct degrees as [| i degrees]; simpl; [done |].
  destruct (select_from_some degrees i) as (person & Hsel & Hin & Hle & Hall).
  fold step. rewrite Hsel. split.
  - destruct Hin as [-> | ?]; [left | by right].
  - intros i' [-> | Hi']%elem_of_cons; [done | by apply Hall].
Qed.

End Select.

Lemma elem_of_add_equals (person : Person * Z) (degrees : list (Person * Z))
    (populars : gset Person) q :
  q ∈ add_equals person degrees populars
  ↔ q ∈ populars ∨ ∃ i, i ∈ degrees ∧ i.1 = q ∧ i.2 = person.2.
Proof.
  unfold add_equals. revert populars.
  induction degrees as [| i degrees IH]; intros populars; simpl.
  - split; [by left |]. intros [? | (i & Hi%elem_of_nil & _)]; done.
  - rewrite IH. setoid_rewrite elem_of_cons.
    destruct (Z.eqb_spec i.2 person.2) as [Heq | Hne].
    + rewrite elem_of_union, elem_of_singleton. naive_solver.
    + naive_solver.
Qed.

(** The set both queries return, for a placeholder that is extreme for [le]. *)
Lemma extreme_set G (le : Z → Z → Prop) (person : Person * Z) q :
  (∀ a b, le a b → le b a → a = b) →
  person ∈ degree G → (∀ i, i ∈ degree G → le i.2 person.2) →
  q ∈ add_equals person (degree G) (∅ ∪ {[person.1]})
  ↔ q ∈ _node G ∧ ∀ n, n ∈ _node G → le (degree_of G n) (degree_of G q).
Proof.
  intros Hanti [Hp Hdeg]%elem_of_degree Hmax.
  rewrite elem_of_add_equals, elem_of_union, elem_of_singleton, elem_of_empty.
  assert (∀ n, n ∈ _node G → le (degree_of G n) person.2) as Hmax'.
  { intros n Hn. apply (Hmax (n, degree_of G n)). by apply elem_of_degree. }
  split.
  - intros [[[] | ->] | (i & [Hi Hd]%elem_of_degree & <- & Hip)].
    + split; [done |]. intros n Hn. rewrite <- Hdeg. by apply Hmax'.
    + split; [done |]. intros n Hn. rewrite <- Hd, Hip. by apply Hmax'.
  - intros [Hq Hall]. right. exists (q, degree_of G q). split_and!; [| done |].
    + by apply elem_of_degree.
    + simpl. apply Hanti; [by apply Hmax' |]. rewrite Hdeg. by apply Hall.
Qed.

(** *** The sum and the count of [get_average] *)

Lemma summation_count_spec G :
  summation_count (degree G) = (total_degree G, Z.of_nat (length (_node G))).
Proof.
  unfold summation_count, total_degree, degree.
  assert (∀ (nodes : list Person) s c,
            foldl (λ (sc : Z * Z) (i : Person * Z), (sc.1 + i.2, sc.2 + 1)) (s, c)
                  (map (λ n, (n, degree_of G n)) nodes)
            = (s + foldr (λ n acc, degree_of G n + acc) 0 nodes,
               c + Z.of_nat (length nodes))) as Hfold.
  { induction nodes as [| n nodes IH]; intros s c; simpl.
    - f_equal; lia.
    - rewrite IH. f_equal; lia. }
  by rewrite Hfold.
Qed.

Lemma total_degree_nonneg G : 0 ≤ total_degree G.
Proof.
  unfold total_degree. induction (_node G) as [| n nodes IH]; simpl; [done |].
  pose proof (degree_of_nonneg G n). lia.
Qed.

(** *** The loop of [get_more_than_four] *)

Lemma elem_of_more_than_four (degrees : list (Person * Z)) (populars : gset Person) q :
  q ∈ foldl (λ (populars : gset Person) (i : Person * Z),
               if 4 <? i.2 then populars ∪ {[i.1]} else populars)
            populars degrees
  ↔ q ∈ populars ∨ ∃ i, i ∈ degrees ∧ i.1 = q ∧ 4 < i.2.
Proof.
  revert populars. induction degrees as [| i degrees IH]; intros populars; simpl.
  - split; [by left |]. intros [? | (i & Hi%elem_of_nil & _)]; done.
  - rewrite IH. setoid_rewrite elem_of_cons.
    destruct (Z.ltb_spec 4 i.2) as [Hlt | Hge].
    + rewrite elem_of_union, elem_of_singleton. naive_solver.
    + split; [naive_solver |].
      intros [? | (i' & [-> | ?] & <- & ?)]; [by left | lia | naive_solver].
Qed.

End Degrees.

(** * The claims about popularity and the average *)

Section Popularity.

Context `{Countable Person}.

Implicit Types (self : SocialNetwork Person) (p q n : Person).

Lemma get_most_popular_empty self :
  _node (graph self) = [] → get_most_popular self = raise TypeError.
Proof. intros Hnil. unfold get_most_popular, degree. by rewrite Hnil. Qed.

Lemma get_least_popular_empty self :
  _node (graph self) = [] → get_least_popular self = raise TypeError.
Proof. intros Hnil. unfold get_least_popular, degree. by rewrite Hnil. Qed.

Lemma get_most_popular_spec self :
  _node (graph self) ≠ [] →
  ∃ populars : gset Person,
    get_most_popular self = ret populars
    ∧ populars ≠ ∅
    ∧ ∀ q, q ∈ populars
           ↔ q ∈ _node (graph self)
             ∧ ∀ n, n ∈ _node (graph self) →
                    degree_of (graph self) n ≤ degree_of (graph self) q.
Proof.
  intros Hne. unfold get_most_popular.
  pose proof (select_person_spec (λ a b, b <? a) Z.le Z.le_refl Z.le_trans
                ltac:(intros a b ?%Z.ltb_lt; lia) ltac:(intros a b ?%Z.ltb_ge; lia)
                (degree (graph self))) as Hsel.
  destruct (select_person _ _) as [person |]; [| by apply degree_nil in Hsel].
  destruct Hsel as [Hin Hmax].
  eexists. split; [done |].
  pose proof (extreme_set (graph self) Z.le person) as Hset.
  split.
  - intros Hempty.
    assert (person.1 ∈ (∅ : gset Person)) as []%elem_of_empty.
    rewrite <- Hempty. apply Hset; [lia | done.. |].
    apply elem_of_degree in Hin as [Hin Hd]. split; [done |].
    intros n Hn. rewrite <- Hd. apply (Hmax (n, degree_of (graph self) n)).
    by apply elem_of_degree.
  - intros q. apply Hset; [lia | done..].
Qed.

Lemma get_least_popular_spec self :
  _node (graph self) ≠ [] →
  ∃ unpopulars : gset Person,
    get_least_popular self = ret unpopulars
    ∧ unpopulars ≠ ∅
    ∧ ∀ q, q ∈ unpopulars
           ↔ q ∈ _node (graph self)
             ∧ ∀ n, n ∈ _node (graph self) →
                    degree_of (graph self) q ≤ degree_of (graph self) n.
Proof.
  intros Hne. unfold get_least_popular.
  pose proof (select_person_spec (λ a b, a <? b) (λ a b, b ≤ a)
                ltac:(cbv beta; intros; lia) ltac:(cbv beta; intros; lia)
                ltac:(cbv beta; intros a b ?%Z.ltb_lt; lia)
                ltac:(cbv beta; intros a b ?%Z.ltb_ge; lia)
                (degree (graph self))) as Hsel.
  destruct (select_person _ _) as [person |]; [| by apply degree_nil in Hsel].
  destruct Hsel as [Hin Hmin].
  eexists. split; [done |].
  pose proof (extreme_set (graph self) (λ a b, b ≤ a) person) as Hset.
  split.
  - intros Hempty.
    assert (person.1 ∈ (∅ : gset Person)) as []%elem_of_empty.
    rewrite <- Hempty. apply Hset; [intros; lia | done.. |].
    apply elem_of_degree in Hin as [Hin Hd]. split; [done |].
    intros n Hn. rewrite <- Hd. apply (Hmin (n, degree_of (graph self) n)).
    by apply elem_of_degree.
  - intros q. apply Hset; [intros; lia | done..].
Qed.

(** The quotient [get_average] rounds or returns. *)
Lemma get_average_quotient self (gov : option string) :
  get_average self gov
  = match Float.truediv (total_degree (graph self))
                        (Z.of_nat (length (_node (graph self)))) with
    | inl e => raise e
    | inr quotient =>
        if bool_decide (gov = Some "floor") then ret (Int (Float.floor quotient))
        else if bool_decide (gov = Some "ceiling") then ret (Int (Float.ceil quotient))
        else if bool_decide (gov = Some "cast") then ret (Int (Float.trunc quotient))
        else ret (Flt quotient)
    end.
Proof.
  unfold get_average. rewrite summation_count_spec.
  by destruct (Float.truediv _ _); repeat case_bool_decide.
Qed.

Lemma get_average_empty self (gov : option string) :
  _node (graph self) = [] → get_average self gov = raise ZeroDivisionError.
Proof. intros Hnil. rewrite get_average_quotient, Hnil. done. Qed.

Lemma get_average_nonempty self (gov : option string) :
  _node (graph self) ≠ [] → ∃ x, get_average self gov = ret x.
Proof.
  intros Hne. rewrite get_average_quotient. unfold Float.truediv.
  destruct (Z.eqb_spec (Z.of_nat (length (_node (graph self)))) 0) as [Hz | _].
  { destruct (_node (graph self)); [done | simpl in Hz; lia]. }
  repeat case_bool_decide; eauto.
Qed.

End Popularity.

Section PopularityClaims.

Context `{Countable Person}.

Variables (people : list Person) (connections : option (list (connection (Person := Person))))
          (gov : option string) (rnd : random_source).

Let self := __init__ people connections gov rnd.

(** C6: for every non-empty graph, [get_most_popular] returns the set of
    all the nodes of maximum degree and [get_least_popular] the set of all
    the nodes of minimum degree; neither set is empty; and everybody in the
    first set has a degree at least that of everybody in the second. *)
Theorem popular_sets_are_the_extremes :
  _node (graph self) ≠ [] →
  ∃ populars unpopulars : gset Person,
    get_most_popular self = ret populars
    ∧ get_least_popular self = ret unpopulars
    ∧ populars ≠ ∅ ∧ unpopulars ≠ ∅
    ∧ (∀ q, q ∈ populars
            ↔ q ∈ _node (graph self)
              ∧ ∀ n, n ∈ _node (graph self) →
                     degree_of (graph self) n ≤ degree_of (graph self) q)
    ∧ (∀ q, q ∈ unpopulars
            ↔ q ∈ _node (graph self)
              ∧ ∀ n, n ∈ _node (graph self) →
                     degree_of (graph self) q ≤ degree_of (graph self) n)
    ∧ ∀ p q, p ∈ populars → q ∈ unpopulars →
             degree_of (graph self) q ≤ degree_of (graph self) p.
Proof.
  intros Hne.
  destruct (get_most_popular_spec self Hne) as (populars & Hmost & Hne1 & Hmax).
  destruct (get_least_popular_spec self Hne) as (unpopulars & Hleast & Hne2 & Hmin).
  exists populars, unpopulars. split_and!; [done.. |].
  intros p q [Hp Hpmax]%Hmax [Hq _]%Hmin. by apply Hpmax.
Qed.

(** C4, as the code has it: on a graph without nodes [get_most_popular]
    and [get_least_popular] raise [TypeError] and [get_average] raises
    [ZeroDivisionError] under every governor; on every other graph the
    three return a value. *)
Theorem queries_fail_exactly_on_the_empty_graph :
  (_node (graph self) = []
   ∧ get_most_popular self = raise TypeError
   ∧ get_least_popular self = raise TypeError
   ∧ ∀ gov', get_average self gov' = raise ZeroDivisionError)
  ∨ (_node (graph self) ≠ []
     ∧ (∃ populars, get_most_popular self = ret populars)
     ∧ (∃ unpopulars, get_least_popular self = ret unpopulars)
     ∧ ∀ gov', ∃ x, get_average self gov' = ret x).
Proof.
  destruct (decide (_node (graph self) = [])) as [Hnil | Hne]; [left | right].
  - split_and!; [done | by apply get_most_popular_empty
                 | by apply get_least_popular_empty |].
    intros gov'. by apply get_average_empty.
  - destruct (get_most_popular_spec self Hne) as (populars & Hmost & _).
    destruct (get_least_popular_spec self Hne) as (unpopulars & Hleast & _).
    split_and!; [done | by eexists.. |].
    intros gov'. by apply get_average_nonempty.
Qed.

(** C3, as the code has it: when somebody has a degree above 4,
    [get_more_than_four] returns the set of the nodes whose degree is above
    4; when nobody has, it returns the string
    "No one has more than four friends". *)
Theorem get_more_than_four_set_or_sentence :
  (∃ populars : gset Person,
     get_more_than_four self = Set_ populars
     ∧ populars ≠ ∅
     ∧ ∀ q, q ∈ populars ↔ q ∈ _node (graph self) ∧ 4 < degree_of (graph self) q)
  ∨ (get_more_than_four self = Str "No one has more than four friends"
     ∧ ∀ q, q ∈ _node (graph self) → degree_of (graph self) q ≤ 4).
Proof.
  unfold get_more_than_four.
  set (populars := foldl _ _ _).
  assert (∀ q, q ∈ populars ↔ q ∈ _node (graph self) ∧ 4 < degree_of (graph self) q)
    as Hpop.
  { intros q. unfold populars. rewrite elem_of_more_than_four, elem_of_empty. split.
    - intros [[] | (i & [Hi Hd]%elem_of_degree & <- & Hlt)]. by rewrite <- Hd.
    - intros [Hq Hlt]. right. exists (q, degree_of (graph self) q).
      split_and!; [by apply elem_of_degree | done..]. }
  destruct (Nat.eqb_spec (size populars) 0) as [Hsize | Hsize].
  - right. split; [done |]. apply size_empty_iff in Hsize.
    intros q Hq. destruct (decide (degree_of (graph self) q ≤ 4)); [done |].
    assert (q ∈ populars) as Hin by (apply Hpop; split; [done | lia]).
    by apply Hsize in Hin.
  - left. exists populars. split_and!; [done | | done].
    intros ->. by rewrite size_empty in Hsize.
Qed.

End PopularityClaims.

(** C6 on the network A - B - C. *)
Lemma popular_sets_are_the_extremes_witness :
  ∃ populars unpopulars : gset string,
    get_most_popular network_abc = ret populars
    ∧ get_least_popular network_abc = ret unpopulars
    ∧ populars ≠ ∅ ∧ unpopulars ≠ ∅
    ∧ ∀ p q, p ∈ populars → q ∈ unpopulars →
             degree_of (graph network_abc) q ≤ degree_of (graph network_abc) p.
Proof.
  destruct (popular_sets_are_the_extremes
              ["A"; "B"; "C"] (Some [("A", "B"); ("B", "C")]) None no_draws)
    as (populars & unpopulars & Hmost & Hleast & Hne1 & Hne2 & _ & _ & Hle).
  - vm_compute. discriminate.
  - exists populars, unpopulars. split_and!; assumption.
Defined.

(** C3 as stated fails on [network_single]: its single person has no
    connection, and the answer of [get_more_than_four] is a string, not the
    empty set. *)
Lemma get_more_than_four_single_is_a_sentence :
  degree (graph network_single) = [("A", 0)]
  ∧ get_more_than_four network_single = Str "No one has more than four friends"
  ∧ get_more_than_four network_single ≠ Set_ ∅.
Proof. split_and!; [vm_compute; reflexivity.. | vm_compute; discriminate]. Qed.

(** C4 as stated fails on [network_empty]: the queries raise [TypeError]
    and [ZeroDivisionError]; no exception of the program is called
    EmptyGraphError. *)
Lemma empty_network_raises_builtin_exceptions :
  _node (graph network_empty) = []
  ∧ get_most_popular network_empty = raise TypeError
  ∧ get_least_popular network_empty = raise TypeError
  ∧ get_average network_empty None = raise ZeroDivisionError
  ∧ ¬ (∃ e, get_most_popular network_empty = raise e
            ∧ exception_name e = "EmptyGraphError")
  ∧ ¬ (∃ e, get_average network_empty None = raise e
            ∧ exception_name e = "EmptyGraphError").
Proof.
  split_and!; [vm_compute; reflexivity.. | |].
  - intros (e & He & Hname). vm_compute in He. injection He as <-. discriminate.
  - intros (e & He & Hname). vm_compute in He. injection He as <-. discriminate.
Qed.

(** * The claims about construction *)

(** C2 as stated fails on [network_loop]: the connection of A to itself
    becomes an edge, A is its own neighbour and has degree 2. *)
Lemma self_loop_is_added :
  ("A", "A") ∈ _edge (graph network_loop)
  ∧ "A" ∈ adj (graph network_loop) "A"
  ∧ degree (graph network_loop) = [("A", 2)].
Proof.
  split_and!; [| | vm_compute; reflexivity].
  - vm_compute. left.
  - vm_compute. left.
Qed.

(** C2, as the code has it: the edges of the constructed graph are the
    supplied connections, unchanged; the graph has an edge from [p] to [p]
    exactly when the pair ([p], [p]) is among the supplied connections. *)
Theorem construction_keeps_every_connection `{Countable Person}
    (people : list Person) (connections : list (Person * Person))
    (gov : option string) (rnd : random_source) :
  let self := __init__ people (Some connections) gov rnd in
  _edge (graph self) = connections
  ∧ ∀ p, (p, p) ∈ _edge (graph self) ↔ (p, p) ∈ connections.
Proof.
  simpl. rewrite populate_graph_edge. done.
Qed.

(** * The scenario of the three people *)

(** C1: in the network built from the people A, B, C and the connections
    (A, B), (B, C) the degrees are 1, 2, 1; [get_friends] is
    {A: {B}, B: {A, C}, C: {B}}; [get_friends_of_friends] is
    {A: {C}, B: {}, C: {A}}; [get_most_popular] is {B}; [get_least_popular]
    is {A, C}; [get_average] is the float 4/3 without governor, 1 under
    "floor" and 2 under "ceiling". *)
Theorem scenario_three_people :
  degree (graph network_abc) = [("A", 1); ("B", 2); ("C", 1)]
  ∧ get_friends network_abc
    = {[ "A" := {["B"]}; "B" := {["A"; "C"]}; "C" := {["B"]} ]}
  ∧ get_friends_of_friends network_abc
    = {[ "A" := {["C"]}; "B" := ∅; "C" := {["A"]} ]}
  ∧ get_most_popular network_abc = ret {["B"]}
  ∧ get_least_popular network_abc = ret {["A"; "C"]}
  ∧ (∃ x, Float.truediv 4 3 = ret x ∧ get_average network_abc None = ret (Flt x))
  ∧ get_average network_abc (Some "floor") = ret (Int 1)
  ∧ get_average network_abc (Some "ceiling") = ret (Int 2).
Proof.
  split_and!; try (vm_compute; reflexivity).
  eexists. split; vm_compute; reflexivity.
Qed.

(** * The random generator of connections *)

Section RandomConnections.

Context {Object : Type} `{EqDecision Object}.

Implicit Types (i j : Object) (people : list Object) (rnd : random_source).

Lemma scan_partners_initiated i people connections rnd :
  scan_partners i people connections rnd
  = (connections ++ (initiated i people rnd).1, (initiated i people rnd).2).
Proof.
  unfold initiated, candidates. revert rnd.
  induction people as [| j people IH]; intros rnd; simpl.
  - by rewrite app_nil_r.
  - unfold is_. case_bool_decide as Hne.
    + subst j. rewrite filter_cons_False by (by intros []). apply IH.
    + rewrite filter_cons_True by done. simpl.
      destruct (rnd 0%nat =? 0); [apply IH | done].
Qed.

Lemma create_connections_random_fold (initiators : list Object) people connections rnd :
  foldl (λ st (i : Object), scan_partners i people st.1 st.2) (connections, rnd) initiators
  = (connections ++ (generate_random initiators people rnd).1,
     (generate_random initiators people rnd).2).
Proof.
  revert connections rnd.
  induction initiators as [| i initiators IH]; intros connections rnd; simpl.
  - by rewrite app_nil_r.
  - rewrite scan_partners_initiated. simpl. rewrite IH.
    destruct (initiated i people rnd) as [first rnd']. simpl.
    destruct (generate_random initiators people rnd') as [others rnd''].
    simpl. by rewrite <- app_assoc.
Qed.

Lemma initiated_length i people rnd : (length (initiated i people rnd).1 ≤ 1)%nat.
Proof.
  unfold initiated. by destruct (first_success _ _) as [[j |] rnd']; simpl; lia.
Qed.

Lemma first_success_elem (partners : list Object) rnd j rnd' :
  first_success partners rnd = (Some j, rnd') → j ∈ partners.
Proof.
  revert rnd. induction partners as [| j' partners IH]; intros rnd; simpl; [done |].
  destruct (rnd 0%nat =? 0).
  - intros Hj%IH. by right.
  - intros [= -> _]. left.
Qed.

Lemma elem_of_initiated i people rnd (c : Object * Object) :
  c ∈ (initiated i people rnd).1 → c.1 = i ∧ c.2 ∈ people ∧ c.1 ≠ c.2.
Proof.
  unfold initiated.
  destruct (first_success _ _) as [[j |] rnd'] eqn:Hfirst; simpl.
  - intros ->%list_elem_of_singleton.
    apply first_success_elem in Hfirst.
    apply list_elem_of_filter in Hfirst as [Hne Hj]. done.
  - by intros ?%elem_of_nil.
Qed.

Lemma generate_random_length (initiators : list Object) people rnd :
  (length (generate_random initiators people rnd).1 ≤ length initiators)%nat.
Proof.
  revert rnd. induction initiators as [| i initiators IH]; intros rnd; simpl; [done |].
  pose proof (initiated_length i people rnd) as Hone.
  destruct (initiated i people rnd) as [first rnd'].
  specialize (IH rnd').
  destruct (generate_random initiators people rnd') as [others rnd''].
  simpl in *. rewrite length_app. lia.
Qed.


Lemma elem_of_generate_random (initiators : list Object) people rnd (c : Object * Object) :
  c ∈ (generate_random initiators people rnd).1 →
  c.1 ∈ initiators ∧ c.2 ∈ people ∧ c.1 ≠ c.2.
Proof.
  revert rnd. induction initiators as [| i initiators IH]; intros rnd; simpl.
  - by intros ?%elem_of_nil.
  - pose proof (elem_of_initiated i people rnd c) as Hfirst.
    destruct (initiated i people rnd) as [first rnd'].
    specialize (IH rnd').
    destruct (generate_random initiators people rnd') as [others rnd''].
    simpl in *. intros [Hc | Hc]%elem_of_app.
    + destruct (Hfirst Hc) as (-> & ? & ?). split_and!; [left | done..].
    + destruct (IH Hc) as (? & ? & ?). split_and!; [by right | done..].
Qed.


End RandomConnections.

(** Three people and the draws 0, 1, 1, 0, 0: A fails on B and succeeds on
    C, B succeeds on A, C fails on A and on B. *)
Example create_connections_random_three :
  (create_connections_random ["A"; "B"; "C"] []
     (λ k, match k with 1%nat | 2%nat => 1 | _ => 0 end)).1
  = [("A", "C"); ("B", "A")].
Proof. reflexivity. Qed.

Example create_connections_full_three :
  create_connections_full ["A"; "B"; "C"] []
  = [("A", "B"); ("A", "C"); ("B", "A"); ("B", "C"); ("C", "A"); ("C", "B")].
Proof. reflexivity. Qed.

(** Two objects of equal value and the draws 1, 2, 3, ...: each object is
    a candidate of the other, two draws are made (the source is left at
    its third outcome) and two connections are emitted, both
    [("Alice", "Alice")] as values. *)
Example create_connections_random_two_alices :
  prod_map value_of value_of
    <$> (create_connections_random two_alices [] (λ k, Z.of_nat k + 1)).1
  = [("Alice", "Alice"); ("Alice", "Alice")]
  ∧ (create_connections_random two_alices [] (λ k, Z.of_nat k + 1)).2 0%nat = 3.
Proof. split; reflexivity. Qed.

(** The same object listed twice: no candidate, no draw, no connection. *)
Example create_connections_random_one_alice_twice :
  create_connections_random [("Alice", 0%nat); ("Alice", 0%nat)] [] (λ k, Z.of_nat k + 1)
  = ([], λ k, Z.of_nat k + 1).
Proof. reflexivity. Qed.

Example create_connections_full_two_alices :
  prod_map value_of value_of <$> create_connections_full two_alices []
  = [("Alice", "Alice"); ("Alice", "Alice")].
Proof. reflexivity. Qed.

(** * The average *)

Section AverageClaims.

Context `{Countable Person}.

Variables (people : list Person) (connections : option (list (connection (Person := Person))))
          (gov : option string) (rnd : random_source).

Let self := __init__ people connections gov rnd.


End AverageClaims.



(** Parallel edges count in the degree and not in the distances; an end of
    a connection that is not among the people becomes a node; people without
    connection are keys with an empty set. *)
Example scenario_parallel_edges :
  degree (graph network_parallel)
  = [("A", 3); ("B", 2); ("C", 0); ("D", 0); ("E", 1)]
  ∧ get_friends network_parallel
    = {[ "A" := {["B"; "E"]}; "B" := {["A"]}; "C" := ∅; "D" := ∅; "E" := {["A"]} ]}
  ∧ get_friends_of_friends network_parallel
    = {[ "A" := ∅; "B" := {["E"]}; "C" := ∅; "D" := ∅; "E" := {["B"]} ]}
  ∧ get_most_popular network_parallel = ret {["A"]}
  ∧ get_least_popular network_parallel = ret {["C"; "D"]}
  ∧ get_average network_parallel (Some "cast") = ret (Int 1).
Proof. split_and!; vm_compute; reflexivity. Qed.

(** The single person is the most and the least popular; the average is 0. *)
Example scenario_single_person :
  get_most_popular network_single = ret {["A"]}
  ∧ get_least_popular network_single = ret {["A"]}
  ∧ get_average network_single None = ret (Flt (Float.mk 0 0))
  ∧ get_friends network_single = {[ "A" := ∅ ]}.
Proof. split_and!; vm_compute; reflexivity. Qed.

(** * Further properties *)

(** ** The sum of the degrees *)

Section Handshake.

Context `{Countable Person}.

Implicit Types (G : MultiGraph Person) (p q n : Person).

Lemma sum_over_plus (g h : Person → Z) (l : list Person) :
  sum_over (λ n, g n + h n) l = sum_over g l + sum_over h l.
Proof. induction l as [| n l IH]; simpl; lia. Qed.

Lemma sum_over_zero (l : list Person) : sum_over (λ _, 0) l = 0.
Proof. induction l as [| n l IH]; simpl; lia. Qed.

Lemma sum_over_indicator (a : Person) (l : list Person) :
  NoDup l →
  sum_over (λ n, if decide (a = n) then 1 else 0) l
  = if decide (a ∈ l) then 1 else 0.
Proof.
  induction 1 as [| n l Hn Hnd IH]; simpl; [done |].
  rewrite IH. destruct (decide (a = n)) as [-> | Hne].
  - rewrite decide_False by done. by rewrite decide_True by left.
  - destruct (decide (a ∈ l)) as [Ha | Ha].
    + by rewrite decide_True by (by right).
    + rewrite decide_False; [done |]. by intros [? | ?]%elem_of_cons.
Qed.

(** Items filed under keys of a duplicate-free list: the sizes of the
    files add up to the number of items. *)
Lemma sum_over_filter {A} (f : A → Person) (l : list Person) (xs : list A) :
  NoDup l → (∀ x, x ∈ xs → f x ∈ l) →
  sum_over (λ n, Z.of_nat (length (filter (λ x, f x = n) xs))) l
  = Z.of_nat (length xs).
Proof.
  intros Hnd. induction xs as [| x xs IH]; intros Hin.
  - apply sum_over_zero.
  - transitivity
      (sum_over (λ n, (if decide (f x = n) then 1 else 0)
                      + Z.of_nat (length (filter (λ x, f x = n) xs))) l).
    { clear. induction l as [| n l IHl]; simpl; [done |].
      rewrite IHl. f_equal. rewrite filter_cons. case_decide; simpl; lia. }
    rewrite sum_over_plus, sum_over_indicator, IH by (done || by intros; apply Hin; right).
    rewrite decide_True by (apply Hin; left). simpl length. lia.
Qed.

Lemma total_degree_edges G :
  well_formed G → total_degree G = 2 * Z.of_nat (length (_edge G)).
Proof.
  intros [Hnd Hends]. unfold total_degree. fold (sum_over (degree_of G) (_node G)).
  unfold degree_of. rewrite sum_over_plus.
  rewrite !sum_over_filter by (done || by intros e He; apply Hends). lia.
Qed.

(** X1: the loop of [get_average] ends with twice the number of connections
    in [summation], whatever the connections are (a connection of a
    person to itself and a repeated connection count like any other), and
    with the number of nodes in [count]. *)
Theorem summation_is_twice_the_connections (persons : list Person)
    (supplied : option (list (Person * Person)))
    (gov : option string) (rnd : random_source) :
  let self := __init__ persons supplied gov rnd in
  summation_count (degree (graph self))
  = (2 * Z.of_nat (length (connections self)),
     Z.of_nat (length (_node (graph self)))).
Proof.
  simpl. rewrite summation_count_spec, total_degree_edges
    by apply populate_graph_well_formed.
  by rewrite populate_graph_edge.
Qed.

End Handshake.

(** ** The average under the governors *)

Section RoundedAverage.

Import Float.

Lemma round_mant_nonneg (n d : Z) : 0 ≤ n → 0 < d → 0 ≤ mant (round n d).
Proof.
  intros Hn Hd. destruct (decide (n = 0)) as [-> | Hne]; [done |].
  pose proof (round_mant_bounds n d ltac:(lia) Hd). lia.
Qed.

Lemma trunc_floor (x : float) : 0 ≤ mant x → trunc x = floor x.
Proof.
  intros Hm. unfold trunc, floor. destruct (0 <=? expo x) eqn:He; [done |].
  apply Z.leb_gt in He.
  apply Z.quot_div_nonneg; [done |]. apply Z.pow_pos_nonneg; lia.
Qed.

(** Below [2 ^ 53] the rounding of the quotient does not reach the next
    integer: the floor and the ceiling of the float are those of the
    fraction. *)
Lemma round_floor_ceil (s c : Z) :
  0 ≤ s < 2 ^ 53 → 0 < c →
  floor (round s c) = s / c ∧ ceil (round s c) = - ((- s) / c).
Proof.
  intros [Hs Hbound] Hc. unfold round.
  destruct (Z.eqb_spec s 0) as [-> | Hne].
  { unfold floor, ceil. simpl. rewrite Z.div_0_l by lia. done. }
  pose proof (exponent_scaled s c ltac:(lia) Hc) as Hlarge.
  pose proof (round_half_even_error (scaled_num s (exponent s c))
                (scaled_den c (exponent s c)) (scaled_den_pos _ _ Hc)) as Herr.
  unfold floor, ceil. simpl.
  set (m := round_half_even _ _) in *. set (e := exponent s c) in *.
  unfold scaled_num, scaled_den in *.
  destruct (Z.leb_spec 0 e) as [He | He].
  - pose proof (Z.pow_pos_nonneg 2 e ltac:(lia) He) as Hpos.
    assert (c * 2 ^ e = 1) as Hone by nia.
    assert (c = 1 ∧ 2 ^ e = 1) as [-> Hpow] by nia.
    rewrite Hpow in *. rewrite !Z.div_1_r. lia.
  - pose proof (Z.pow_pos_nonneg 2 (- e) ltac:(lia) ltac:(lia)) as Hpos.
    set (P := 2 ^ (- e)) in *.
    assert (c < 2 * P) as Hsmall by nia.
    split.
    + pose proof (Z.div_mod s c ltac:(lia)) as Hdiv.
      pose proof (Z.mod_pos_bound s c Hc) as Hmod.
      set (k := s / c) in *.
      symmetry. apply (Z.div_unique m P k (m - P * k)); [| lia]. left.
      assert (c * (k * P) ≤ s * P) by nia.
      assert ((s + 1) * P ≤ c * ((k + 1) * P)) by nia.
      split; nia.
    + f_equal.
      pose proof (Z.div_mod (- s) c ltac:(lia)) as Hdiv.
      pose proof (Z.mod_pos_bound (- s) c Hc) as Hmod.
      set (k := (- s) / c) in *.
      symmetry. apply (Z.div_unique (- m) P k (- m - P * k)); [| lia]. left.
      assert (c * (k * P) ≤ - s * P) by nia.
      assert ((- s + 1) * P ≤ c * ((k + 1) * P)) by nia.
      split; nia.
Qed.

End RoundedAverage.

Section AverageGovernors.

Context `{Countable Person}.

Lemma get_average_cast_floor (self : SocialNetwork Person) :
  get_average self (Some "cast") = get_average self (Some "floor").
Proof.
  rewrite !get_average_quotient.
  pose proof (total_degree_nonneg (graph self)) as Htotal.
  destruct (decide (_node (graph self) = [])) as [-> | Hne]; [done |].
  assert (0 < Z.of_nat (length (_node (graph self)))) as Hcount.
  { destruct (_node (graph self)); [done | simpl; lia]. }
  rewrite truediv_nonneg by done.
  repeat (case_bool_decide; simplify_eq). unfold ret.
  rewrite trunc_floor; [done |]. by apply round_mant_nonneg.
Qed.

Variables (persons : list Person) (supplied : option (list (Person * Person)))
          (gov : option string) (rnd : random_source).

Let self := __init__ persons supplied gov rnd.

(** X2: [int()] and [math.floor] round the average the same way, because a
    sum of degrees is not negative: the governor "cast" gives what "floor"
    gives, on every network (on the empty one both raise
    [ZeroDivisionError]). *)
Theorem get_average_cast_is_floor :
  get_average self (Some "cast") = get_average self (Some "floor").
Proof. apply get_average_cast_floor. Qed.

(** X3: with fewer than [2 ^ 52] connections the rounded averages are those of
    exact arithmetic: on a non-empty network "floor" and "cast" return
    twice the number of connections divided by the number of nodes, rounded
    down, and "ceiling" returns it rounded up; the rounding of the float
    division never shows. *)
Theorem get_average_rounds_the_exact_mean :
  _node (graph self) ≠ [] →
  2 * Z.of_nat (length (connections self)) < 2 ^ 53 →
  let twice := 2 * Z.of_nat (length (connections self)) in
  let count := Z.of_nat (length (_node (graph self))) in
  get_average self (Some "floor") = ret (Int (twice / count))
  ∧ get_average self (Some "cast") = ret (Int (twice / count))
  ∧ get_average self (Some "ceiling") = ret (Int (- ((- twice) / count))).
Proof.
  intros Hne Hbound twice count.
  assert (0 < count) as Hcount.
  { unfold count. destruct (_node (graph self)); [done | simpl; lia]. }
  assert (total_degree (graph self) = twice) as Htotal.
  { unfold twice, self. simpl.
    rewrite total_degree_edges by apply populate_graph_well_formed.
    by rewrite populate_graph_edge. }
  destruct (round_floor_ceil twice count ltac:(unfold twice in *; lia) Hcount)
    as [Hfloor Hceil].
  rewrite get_average_cast_floor, !get_average_quotient.
  fold count. rewrite Htotal, truediv_nonneg by (unfold twice; lia).
  simpl. by rewrite Hfloor, Hceil.
Qed.

End AverageGovernors.

(** The exact rounded means of the network A - B - C: two connections,
    three nodes. *)
Lemma get_average_rounds_the_exact_mean_witness :
  get_average network_abc (Some "floor") = ret (Int 1)
  ∧ get_average network_abc (Some "cast") = ret (Int 1)
  ∧ get_average network_abc (Some "ceiling") = ret (Int 2).
Proof.
  refine (get_average_rounds_the_exact_mean
            ["A"; "B"; "C"] (Some [("A", "B"); ("B", "C")]) None no_draws _ _).
  - vm_compute. discriminate.
  - vm_compute. reflexivity.
Defined.

(** ** Friends, friends of friends and the other degrees of separation *)

Section Separation.

Context `{Countable Person}.

Implicit Types (G : MultiGraph Person) (p q r : Person).

Lemma dist_one G p q : dist G p q 1 ↔ q ∈ adj G p ∧ q ≠ p.
Proof.
  split.
  - intros [Hw Hmin]. split.
    + inversion Hw as [| k r q' Hr Hadj]; subst.
      apply walk_zero in Hr. by subst.
    + intros ->. specialize (Hmin 0%nat (walk_here G p)). lia.
  - intros [Hadj Hne]. split.
    + eapply walk_step; [apply walk_here | done].
    + intros [| k] Hk; [| lia]. by apply walk_zero in Hk.
Qed.

Lemma dist_two G p q :
  dist G p q 2 ↔ q ≠ p ∧ (q ∉ adj G p) ∧ ∃ r, r ∈ adj G p ∧ q ∈ adj G r.
Proof.
  split.
  - intros [Hw Hmin]. split_and!.
    + intros ->. specialize (Hmin 0%nat (walk_here G p)). lia.
    + intros Hadj.
      specialize (Hmin 1%nat (walk_step G p _ _ _ (walk_here G p) Hadj)). lia.
    + inversion Hw as [| k r q' Hr Hadj]; subst.
      inversion Hr as [| k r' q' Hr' Hadj']; subst.
      apply walk_zero in Hr' as ->. by exists r.
  - intros (Hne & Hnadj & r & Hr & Hq). split.
    + eapply walk_step; [| done]. eapply walk_step; [apply walk_here | done].
    + intros [| [| k]] Hk; [| | lia].
      * by apply walk_zero in Hk.
      * inversion Hk as [| k r' q' Hr' Hadj]; subst.
        by apply walk_zero in Hr' as ->.
Qed.

(** The node before the last on a shortest walk is one step nearer. *)
Lemma dist_pred G p q d : dist G p q (S d) → ∃ r, dist G p r d ∧ q ∈ adj G r.
Proof.
  intros [Hw Hmin]. inversion Hw as [| k r q' Hr Hadj]; subst.
  exists r. split; [| done]. split; [done |].
  intros k Hk. specialize (Hmin (S k) (walk_step G p _ _ _ Hk Hadj)). lia.
Qed.

(** A node at distance [d] comes with [d + 1] different nodes, one at each
    distance up to [d]. *)
Lemma dist_chain G p q d :
  dist G p q d →
  ∃ l : list Person,
    length l = S d ∧ NoDup l ∧ ∀ x, x ∈ l → ∃ k, (k ≤ d)%nat ∧ dist G p x k.
Proof.
  revert q. induction d as [| d IH]; intros q Hq.
  - exists [q]. split_and!; [done | apply NoDup_singleton |].
    intros x ->%list_elem_of_singleton. by exists 0%nat.
  - destruct (dist_pred _ _ _ _ Hq) as (r & Hr & _).
    destruct (IH r Hr) as (l & Hlen & Hnd & Hl).
    exists (q :: l). split_and!.
    + simpl. by rewrite Hlen.
    + apply NoDup_cons. split; [| done].
      intros (k & Hk & Hx)%Hl. pose proof (dist_unique _ _ _ _ _ Hq Hx). lia.
    + intros x [-> | (k & Hk & Hx)%Hl]%elem_of_cons.
      * by exists (S d).
      * exists k. split; [lia | done].
Qed.

Lemma dist_lt_nodes G p q d :
  well_formed G → p ∈ _node G → dist G p q d → (d < length (_node G))%nat.
Proof.
  intros HG Hp Hq. destruct (dist_chain _ _ _ _ Hq) as (l & Hlen & Hnd & Hl).
  assert (l ⊆+ _node G) as Hsub%submseteq_length; [| lia].
  apply NoDup_submseteq; [done |].
  intros x (k & _ & [Hw _])%Hl. by eapply walk_node.
Qed.

Variables (persons : list Person) (supplied : option (list (Person * Person)))
          (gov : option string) (rnd : random_source).

Let self := __init__ persons supplied gov rnd.

(** X4: the friends of a node are the other ends of its connections, in either
    direction, the node itself left out even when it is connected to
    itself. *)
Theorem get_friends_are_the_connected p (temp : gset Person) :
  get_friends self !! p = Some temp →
  ∀ q, q ∈ temp
       ↔ q ≠ p ∧ ((p, q) ∈ connections self ∨ (q, p) ∈ connections self).
Proof.
  intros Hp q. unfold get_friends in Hp.
  rewrite (get_adjacency_dist _ _ _ _ _ (init_well_formed _ _ _ _) Hp).
  assert (connections self = _edge (graph self)) as ->.
  { unfold self. simpl. by rewrite populate_graph_edge. }
  rewrite <- elem_of_adj, (comm (∧) (q ≠ p)), <- dist_one. split.
  - intros (d & Hd & Hone). by replace 1%nat with d by lia.
  - intros Hd. by exists 1%nat.
Qed.

(** X5: the friends of friends of a node are the friends of its friends that
    are neither the node nor among its friends. *)
Theorem get_friends_of_friends_are_friends_of_friends p (friends fof : gset Person) :
  get_friends self !! p = Some friends →
  get_friends_of_friends self !! p = Some fof →
  ∀ q, q ∈ fof
       ↔ q ≠ p ∧ (q ∉ friends)
         ∧ ∃ r (friends_r : gset Person),
             r ∈ friends ∧ get_friends self !! r = Some friends_r ∧ q ∈ friends_r.
Proof.
  intros Hfriends Hfof q.
  pose proof (init_well_formed persons supplied gov rnd) as HG. fold self in HG.
  assert (∀ x (temp : gset Person) y,
            get_friends self !! x = Some temp →
            y ∈ temp ↔ y ∈ adj (graph self) x ∧ y ≠ x) as Hadj.
  { intros x temp y Hx. unfold get_friends in Hx.
    rewrite (get_adjacency_dist _ _ _ _ _ HG Hx), <- dist_one. split.
    - intros (d & Hd & Hone). by replace 1%nat with d by lia.
    - intros Hd. by exists 1%nat. }
  unfold get_friends_of_friends in Hfof.
  rewrite (get_adjacency_dist _ _ _ _ _ HG Hfof).
  transitivity (dist (graph self) p q 2).
  { split; [| by exists 2%nat].
    intros (d & Hd & Htwo). by replace 2%nat with d by lia. }
  rewrite dist_two, (Hadj _ _ _ Hfriends). split.
  - intros (Hne & Hnadj & r & Hr & Hq). split_and!; [done | tauto |].
    assert (r ∈ _node (graph self)) as Hnode by (by eapply adj_node).
    pose proof (get_adjacency_lookup self 1 r) as Hlookup.
    rewrite decide_True in Hlookup by done.
    eexists r, _. split_and!; [| exact Hlookup |].
    + apply (Hadj _ _ _ Hfriends). split; [done |]. by intros ->.
    + apply (Hadj _ _ _ Hlookup). split; [done |]. by intros ->.
  - intros (Hne & Hnot & r & friends_r & Hr & Hlookup & Hq).
    apply (Hadj _ _ _ Hfriends) in Hr as [Hr _].
    apply (Hadj _ _ _ Hlookup) in Hq as [Hq _].
    split_and!; [done | tauto | by exists r].
Qed.

(** X6: two different degrees of separation never share a node: the entries of
    [p] for [degree] and for [degree'] are disjoint.  In particular nobody
    is both a friend and a friend of a friend. *)
Theorem separation_degrees_are_disjoint (degree degree' : Z) p
    (temp temp' : gset Person) :
  degree ≠ degree' →
  get_adjacency_with_separation_degree self degree !! p = Some temp →
  get_adjacency_with_separation_degree self degree' !! p = Some temp' →
  temp ## temp'.
Proof.
  intros Hne Hp Hp' q.
  rewrite (get_adjacency_dist _ _ _ _ _ (init_well_formed _ _ _ _) Hp).
  rewrite (get_adjacency_dist _ _ _ _ _ (init_well_formed _ _ _ _) Hp').
  intros (d & Hd & <-) (d' & Hd' & <-).
  by rewrite (dist_unique _ _ _ _ _ Hd Hd') in Hne.
Qed.

(** X7: an entry holds nodes of the graph only, and holds none unless the
    degree is at least 0 and below the number of nodes. *)
Theorem separation_degree_range (degree : Z) p (temp : gset Person) q :
  get_adjacency_with_separation_degree self degree !! p = Some temp →
  q ∈ temp →
  q ∈ _node (graph self)
  ∧ 0 ≤ degree < Z.of_nat (length (_node (graph self))).
Proof.
  intros Hp.
  pose proof (init_well_formed persons supplied gov rnd) as HG. fold self in HG.
  rewrite (get_adjacency_dist _ _ _ _ _ HG Hp).
  assert (p ∈ _node (graph self)) as Hnode.
  { rewrite get_adjacency_lookup in Hp. by case_decide. }
  intros (d & Hd & <-). split.
  - destruct Hd as [Hw _]. by eapply walk_node.
  - pose proof (dist_lt_nodes _ _ _ _ HG Hnode Hd). lia.
Qed.

End Separation.

(** In the network A - B - C the friends of B are A and C. *)
Lemma get_friends_are_the_connected_witness :
  "A" ∈ ({["A"; "C"]} : gset string)
  ↔ "A" ≠ "B" ∧ (("B", "A") ∈ connections network_abc
                 ∨ ("A", "B") ∈ connections network_abc).
Proof.
  refine (get_friends_are_the_connected
            ["A"; "B"; "C"] (Some [("A", "B"); ("B", "C")]) None no_draws
            "B" {["A"; "C"]} _ "A").
  vm_compute. reflexivity.
Defined.

(** In the network A - B - C the only friend of a friend of A is C. *)
Lemma get_friends_of_friends_are_friends_of_friends_witness :
  "C" ∈ ({["C"]} : gset string)
  ↔ "C" ≠ "A" ∧ ("C" ∉ ({["B"]} : gset string))
    ∧ ∃ r (friends_r : gset string),
        r ∈ ({["B"]} : gset string)
        ∧ get_friends network_abc !! r = Some friends_r ∧ "C" ∈ friends_r.
Proof.
  refine (get_friends_of_friends_are_friends_of_friends
            ["A"; "B"; "C"] (Some [("A", "B"); ("B", "C")]) None no_draws
            "A" {["B"]} {["C"]} _ _ "C"); vm_compute; reflexivity.
Defined.

(** In the network A - B - C the friends of A and the friends of its
    friends are disjoint. *)
Lemma separation_degrees_are_disjoint_witness :
  ({["B"]} : gset string) ## ({["C"]} : gset string).
Proof.
  refine (separation_degrees_are_disjoint
            ["A"; "B"; "C"] (Some [("A", "B"); ("B", "C")]) None no_draws
            1 2 "A" {["B"]} {["C"]} _ _ _).
  - discriminate.
  - vm_compute. reflexivity.
  - vm_compute. reflexivity.
Defined.

(** In the network A - B - C the node C is two steps from A, and 2 is below
    the number of nodes. *)
Lemma separation_degree_range_witness :
  "C" ∈ _node (graph network_abc)
  ∧ 0 ≤ 2 < Z.of_nat (length (_node (graph network_abc))).
Proof.
  refine (separation_degree_range
            ["A"; "B"; "C"] (Some [("A", "B"); ("B", "C")]) None no_draws
            2 "A" {["C"]} "C" _ _).
  - vm_compute. reflexivity.
  - apply elem_of_singleton. reflexivity.
Defined.

(** ** The popular, the unpopular and those with more than four friends *)

Section PopularityRelations.

Context `{Countable Person}.

Lemma get_more_than_four_set (self : SocialNetwork Person) (populars : gset Person) :
  get_more_than_four self = Set_ populars →
  populars ≠ ∅
  ∧ ∀ q, q ∈ populars ↔ q ∈ _node (graph self) ∧ 4 < degree_of (graph self) q.
Proof.
  unfold get_more_than_four. destruct (_ =? _)%nat eqn:Hsize; [done |].
  intros [= <-]. split.
  { intros Hempty. by rewrite Hempty, size_empty in Hsize. }
  intros q. rewrite elem_of_more_than_four, elem_of_empty. split.
  - intros [[] | (i & [Hi Hd]%elem_of_degree & <- & Hlt)].
    rewrite Hd in Hlt. done.
  - intros [Hq Hlt]. right. exists (q, degree_of (graph self) q).
    split_and!; [by apply elem_of_degree | done..].
Qed.

Variables (persons : list Person) (supplied : option (list (Person * Person)))
          (gov : option string) (rnd : random_source).

Let self := __init__ persons supplied gov rnd.

(** X8: somebody is both among the most and among the least popular only when
    everybody has the same degree, and then both sets are the set of all
    nodes; otherwise the two sets are disjoint. *)
Theorem popular_sets_disjoint_or_everybody :
  _node (graph self) ≠ [] →
  ∃ populars unpopulars : gset Person,
    get_most_popular self = ret populars
    ∧ get_least_popular self = ret unpopulars
    ∧ ((populars = list_to_set (_node (graph self))
        ∧ unpopulars = list_to_set (_node (graph self))
        ∧ ∀ p q, p ∈ _node (graph self) → q ∈ _node (graph self) →
                 degree_of (graph self) p = degree_of (graph self) q)
       ∨ (populars ## unpopulars
          ∧ ∃ p q, p ∈ _node (graph self) ∧ q ∈ _node (graph self)
                   ∧ degree_of (graph self) q < degree_of (graph self) p)).
Proof.
  intros Hne.
  destruct (get_most_popular_spec self Hne) as (populars & Hmost & Hne1 & Hmax).
  destruct (get_least_popular_spec self Hne) as (unpopulars & Hleast & Hne2 & Hmin).
  exists populars, unpopulars. split_and!; [done.. |].
  apply set_choose_L in Hne1 as [p Hp]. apply set_choose_L in Hne2 as [q Hq].
  destruct (Hmax p) as [[Hpn Hpmax]%(λ f, f Hp) _].
  destruct (Hmin q) as [[Hqn Hqmin]%(λ f, f Hq) _].
  destruct (decide (degree_of (graph self) q < degree_of (graph self) p))
    as [Hlt | Hge].
  - right. split; [| by exists p, q].
    intros x [_ Hxmax]%Hmax [_ Hxmin]%Hmin.
    specialize (Hxmax p Hpn). specialize (Hxmin q Hqn). lia.
  - left.
    assert (∀ x y, x ∈ _node (graph self) → y ∈ _node (graph self) →
                   degree_of (graph self) x = degree_of (graph self) y) as Hall.
    { intros x y Hx Hy.
      pose proof (Hpmax x Hx). pose proof (Hpmax y Hy).
      pose proof (Hqmin x Hx). pose proof (Hqmin y Hy). lia. }
    split_and!; [| | done].
    + apply set_eq. intros x. rewrite Hmax, elem_of_list_to_set. split; [tauto |].
      intros Hx. split; [done |]. intros n Hn. by rewrite (Hall n x).
    + apply set_eq. intros x. rewrite Hmin, elem_of_list_to_set. split; [tauto |].
      intros Hx. split; [done |]. intros n Hn. by rewrite (Hall n x).
Qed.

(** X9: when [get_more_than_four] returns a set, the most popular people are
    all in it. *)
Theorem most_popular_have_more_than_four (many populars : gset Person) :
  get_more_than_four self = Set_ many →
  get_most_popular self = ret populars →
  populars ⊆ many.
Proof.
  intros Hmany Hmost.
  destruct (get_more_than_four_set _ _ Hmany) as [[q Hq]%set_choose_L Hmany'].
  apply Hmany' in Hq as [Hqn Hq4].
  assert (_node (graph self) ≠ []) as Hne.
  { intros Hnil. rewrite Hnil in Hqn. by apply elem_of_nil in Hqn. }
  destruct (get_most_popular_spec self Hne) as (populars' & Hmost' & _ & Hmax).
  assert (populars' = populars) as -> by (unfold ret in *; congruence).
  intros p [Hpn Hpmax]%Hmax. apply Hmany'.
  split; [done |]. specialize (Hpmax q Hqn). lia.
Qed.

End PopularityRelations.

(** In the network A - B - C somebody has more friends than somebody else:
    the most popular and the least popular are disjoint. *)
Lemma popular_sets_disjoint_or_everybody_witness :
  ∃ populars unpopulars : gset string,
    get_most_popular network_abc = ret populars
    ∧ get_least_popular network_abc = ret unpopulars
    ∧ populars ## unpopulars.
Proof.
  destruct (popular_sets_disjoint_or_everybody
              ["A"; "B"; "C"] (Some [("A", "B"); ("B", "C")]) None no_draws)
    as (populars & unpopulars & Hmost & Hleast & [(_ & _ & Hall) | [Hdisj _]]).
  - vm_compute. discriminate.
  - specialize (Hall "A" "B"). vm_compute in Hall.
    discriminate Hall; [left | right; left].
  - by exists populars, unpopulars.
Defined.

(** A is connected to five others: it alone has more than four friends, and
    it is the most popular. *)
Lemma most_popular_have_more_than_four_witness :
  ({["A"]} : gset string) ⊆ ({["A"]} : gset string).
Proof.
  refine (most_popular_have_more_than_four
            ["A"; "B"; "C"; "D"; "E"; "F"]
            (Some [("A", "B"); ("A", "C"); ("A", "D"); ("A", "E"); ("A", "F")])
            None no_draws {["A"]} {["A"]} _ _); vm_compute; reflexivity.
Defined.

(** ** The nodes of the constructed graph *)

Section Nodes.

Context `{Countable Person}.

Implicit Types (G : MultiGraph Person) (p q : Person).

Lemma add_node_known G p : p ∈ _node G → add_node G p = G.
Proof. intros Hp. unfold add_node. by rewrite decide_True. Qed.

Lemma add_nodes_from_fresh G (nodes : list Person) :
  NoDup (_node G ++ nodes) → _node (add_nodes_from G nodes) = _node G ++ nodes.
Proof.
  revert G. induction nodes as [| n nodes IH]; intros G Hnd; simpl.
  - by rewrite app_nil_r.
  - apply NoDup_app in Hnd as (HG & Hfresh & [Hn Hnodes]%NoDup_cons).
    unfold add_nodes_from in *. simpl. unfold add_node at 2.
    rewrite decide_False by (intros Hin; apply (Hfresh _ Hin); left).
    rewrite IH; simpl; [by rewrite <- app_assoc |].
    rewrite <- app_assoc. simpl. apply NoDup_app. split_and!; [done | | by apply NoDup_cons].
    intros x Hx [-> | Hx']%elem_of_cons.
    + apply (Hfresh _ Hx). left.
    + apply (Hfresh _ Hx). by right.
Qed.

Lemma add_edges_from_known G (ebunch : list (Person * Person)) :
  (∀ e, e ∈ ebunch → e.1 ∈ _node G ∧ e.2 ∈ _node G) →
  _node (add_edges_from G ebunch) = _node G.
Proof.
  revert G. induction ebunch as [| e ebunch IH]; intros G Hends; [done |].
  unfold add_edges_from in *. simpl.
  destruct (Hends e ltac:(left)) as [H1 H2].
  assert (_node (add_edge G e) = _node G) as Hsame.
  { unfold add_edge. simpl. by rewrite (add_node_known G e.1 H1), (add_node_known G e.2 H2). }
  rewrite IH, Hsame; [done |].
  intros e' He'. rewrite Hsame. apply Hends. by right.
Qed.

Variables (persons : list Person) (supplied : option (list (Person * Person)))
          (gov : option string) (rnd : random_source).

Let self := __init__ persons supplied gov rnd.

(** X10: the nodes of the constructed graph are the people and the ends of the
    connections, each once: a person listed twice is one node, and an end
    of a connection that is not among the people is a node all the same. *)
Theorem nodes_are_people_and_connection_ends :
  NoDup (_node (graph self))
  ∧ ∀ p, p ∈ _node (graph self)
         ↔ p ∈ persons ∨ ∃ e, e ∈ connections self ∧ (p = e.1 ∨ p = e.2).
Proof.
  split; [apply populate_graph_well_formed |].
  intros p. apply elem_of_populate_graph.
Qed.

(** X11: when the people are distinct and the connections are among them, the
    nodes are the people in the order given, so [graph.degree] lists the
    people in that order. *)
Theorem nodes_are_the_people_in_order :
  NoDup persons →
  (∀ e, e ∈ connections self → e.1 ∈ persons ∧ e.2 ∈ persons) →
  _node (graph self) = persons
  ∧ degree (graph self) = map (λ p, (p, degree_of (graph self) p)) persons.
Proof.
  intros Hnd Hends.
  assert (_node (graph self) = persons) as Hnodes.
  { unfold self. simpl. unfold populate_graph.
    rewrite add_edges_from_known; rewrite add_nodes_from_fresh by done; done. }
  split; [done |]. unfold degree. by rewrite Hnodes.
Qed.

End Nodes.

(** The people A, B, C are distinct and both connections are among them. *)
Lemma nodes_are_the_people_in_order_witness :
  _node (graph network_abc) = ["A"; "B"; "C"]
  ∧ degree (graph network_abc)
    = map (λ p, (p, degree_of (graph network_abc) p)) ["A"; "B"; "C"].
Proof.
  refine (nodes_are_the_people_in_order
            ["A"; "B"; "C"] (Some [("A", "B"); ("B", "C")]) None no_draws _ _).
  - exact (bool_decide_unpack (NoDup ["A"; "B"; "C"]) I).
  - intros e He. change (e ∈ [("A", "B"); ("B", "C")]) in He.
    repeat (apply elem_of_cons in He as [-> | He]; [split; set_solver |]).
    by apply elem_of_nil in He.
Defined.

(** ** A network without connections *)

Section Isolated.

Context `{Countable Person}.

Implicit Types (G : MultiGraph Person) (self : SocialNetwork Person) (p q : Person).

Lemma dist_no_edges G p q d : _edge G = [] → dist G p q d → d = 0%nat.
Proof.
  intros Hnil [Hw _]. destruct Hw as [| k r q _ Hadj]; [done |].
  apply elem_of_adj in Hadj. rewrite Hnil in Hadj.
  by destruct Hadj as [?%elem_of_nil | ?%elem_of_nil].
Qed.

Lemma degree_of_no_edges G p : _edge G = [] → degree_of G p = 0.
Proof. intros Hnil. unfold degree_of. by rewrite Hnil. Qed.

Lemma get_adjacency_no_edges self (degree : Z) :
  well_formed (graph self) → _edge (graph self) = [] → degree ≠ 0 →
  get_adjacency_with_separation_degree self degree
  = gset_to_gmap ∅ (list_to_set (_node (graph self))).
Proof.
  intros HG Hnil Hdeg. apply map_eq. intros p.
  rewrite get_adjacency_lookup. case_decide as Hp.
  - symmetry. apply lookup_gset_to_gmap_Some.
    split; [by apply elem_of_list_to_set |].
    symmetry. apply set_eq. intros q.
    rewrite elem_of_at_separation, elem_of_empty. split; [| done].
    intros (d & Hd & <-).
    apply single_source_shortest_path_length_spec in Hd; [| done..].
    apply dist_no_edges in Hd; [lia | done].
  - symmetry. apply lookup_gset_to_gmap_None. by rewrite elem_of_list_to_set.
Qed.

Lemma queries_no_edges self :
  well_formed (graph self) → _edge (graph self) = [] → _node (graph self) ≠ [] →
  get_most_popular self = ret (list_to_set (_node (graph self)))
  ∧ get_least_popular self = ret (list_to_set (_node (graph self)))
  ∧ get_average self None = ret (Flt (Float.mk 0 0))
  ∧ get_more_than_four self = Str "No one has more than four friends".
Proof.
  intros HG Hnil Hne. split_and!.
  - destruct (get_most_popular_spec self Hne) as (populars & -> & _ & Hmax).
    f_equal. apply set_eq. intros q. rewrite Hmax, elem_of_list_to_set.
    split; [tauto |]. intros Hq. split; [done |].
    intros n _. by rewrite !degree_of_no_edges.
  - destruct (get_least_popular_spec self Hne) as (unpopulars & -> & _ & Hmin).
    f_equal. apply set_eq. intros q. rewrite Hmin, elem_of_list_to_set.
    split; [tauto |]. intros Hq. split; [done |].
    intros n _. by rewrite !degree_of_no_edges.
  - rewrite get_average_quotient, total_degree_edges, Hnil by done. simpl.
    rewrite truediv_nonneg; [done.. |].
    destruct (_node (graph self)); [done | simpl; lia].
  - unfold get_more_than_four.
    assert (foldl (λ (populars : gset Person) (i : Person * Z),
                     if 4 <? i.2 then populars ∪ {[i.1]} else populars)
                  ∅ (degree (graph self)) = ∅) as ->; [| done].
    apply set_eq. intros q. rewrite elem_of_more_than_four, elem_of_empty.
    split; [| done].
    intros [[] | (i & [_ Hd]%elem_of_degree & _ & Hlt)].
    rewrite Hd, degree_of_no_edges in Hlt by done. lia.
Qed.

Variables (persons : list Person) (supplied : option (list (Person * Person)))
          (gov : option string) (rnd : random_source).

Let self := __init__ persons supplied gov rnd.

(** X12: a network with people and no connection: everybody is a key of
    [get_friends] and of [get_friends_of_friends] with the empty set,
    everybody is most popular and least popular, the average is the float
    0, and [get_more_than_four] returns its sentence. *)
Theorem network_without_connections :
  connections self = [] → persons ≠ [] →
  get_friends self = gset_to_gmap ∅ (list_to_set persons)
  ∧ get_friends_of_friends self = gset_to_gmap ∅ (list_to_set persons)
  ∧ get_most_popular self = ret (list_to_set persons)
  ∧ get_least_popular self = ret (list_to_set persons)
  ∧ get_average self None = ret (Flt (Float.mk 0 0))
  ∧ get_more_than_four self = Str "No one has more than four friends".
Proof.
  intros Hnil Hne.
  pose proof (init_well_formed persons supplied gov rnd) as HG. fold self in HG.
  assert (_edge (graph self) = []) as Hedge.
  { rewrite <- Hnil. unfold self. simpl. by rewrite populate_graph_edge. }
  assert (list_to_set (_node (graph self)) = (list_to_set persons : gset Person))
    as Hnodes.
  { apply set_eq. intros p. rewrite !elem_of_list_to_set.
    pose proof Hnil as Hnil'. unfold self in Hnil' |- *. simpl in Hnil' |- *.
    rewrite elem_of_populate_graph, Hnil'. split; [| by left].
    intros [? | (e & ?%elem_of_nil & _)]; done. }
  assert (_node (graph self) ≠ []) as Hne'.
  { intros Hn. rewrite Hn in Hnodes. destruct persons as [| p ?]; [done |].
    assert (p ∈ (∅ : gset Person)) as []%elem_of_empty.
    rewrite (list_to_set_nil (C := gset Person)) in Hnodes. rewrite Hnodes. set_solver. }
  rewrite <- Hnodes.
  unfold get_friends, get_friends_of_friends.
  rewrite !get_adjacency_no_edges by done.
  destruct (queries_no_edges self HG Hedge Hne') as (? & ? & ? & ?).
  by split_and!.
Qed.

End Isolated.

(** Two people and no connection. *)
Lemma network_without_connections_witness :
  get_friends (__init__ ["A"; "B"] (Some []) None no_draws)
  = gset_to_gmap ∅ (list_to_set ["A"; "B"])
  ∧ get_most_popular (__init__ ["A"; "B"] (Some []) None no_draws)
    = ret (list_to_set ["A"; "B"]).
Proof.
  destruct (network_without_connections ["A"; "B"] (Some []) None no_draws)
    as (Hfriends & _ & Hmost & _); [reflexivity | discriminate |].
  by split.
Defined.

(** ** The full generator of connections *)

Section FullGenerator.

Context {Object : Type} `{EqDecision Object}.

Implicit Types (i j : Object) (people : list Object).

(** What [i] contributes: a connection to every object of the list other
    than [i] itself, in order. *)
Lemma full_partners i (js : list Object) (connections : list (Object * Object)) :
  foldl (λ conns j, if is_ i j then conns else conns ++ [(i, j)]) connections js
  = connections ++ ((λ j, (i, j)) <$> filter (λ j, i ≠ j) js).
Proof.
  revert connections. induction js as [| j js IH]; intros connections; simpl.
  - by rewrite app_nil_r.
  - rewrite IH. unfold is_. case_bool_decide as Hne.
    + subst j. by rewrite filter_cons_False by (by intros []).
    + rewrite filter_cons_True by done. simpl. by rewrite <- app_assoc.
Qed.

Lemma full_initiators (initiators : list Object) people
    (connections : list (Object * Object)) :
  foldl (λ conns (i : Object),
           foldl (λ conns j, if is_ i j then conns else conns ++ [(i, j)])
                 conns people)
        connections initiators
  = connections
    ++ (initiators ≫= λ i, (λ j, (i, j)) <$> filter (λ j, i ≠ j) people).
Proof.
  revert connections.
  induction initiators as [| i initiators IH]; intros connections.
  - simpl. by rewrite app_nil_r.
  - cbn [foldl]. rewrite IH, full_partners, bind_cons, <- app_assoc. done.
Qed.

Lemma create_connections_full_bind people (connections : list (Object * Object)) :
  create_connections_full people connections
  = connections ++ (people ≫= λ i, (λ j, (i, j)) <$> filter (λ j, i ≠ j) people).
Proof. apply full_initiators. Qed.

Lemma elem_of_create_connections_full people
    (connections : list (Object * Object)) (c : Object * Object) :
  c ∈ create_connections_full people connections
  ↔ c ∈ connections ∨ (c.1 ∈ people ∧ c.2 ∈ people ∧ c.1 ≠ c.2).
Proof.
  rewrite create_connections_full_bind, elem_of_app, list_elem_of_bind.
  setoid_rewrite list_elem_of_fmap. setoid_rewrite list_elem_of_filter.
  destruct c as [a b]. simpl. split.
  - intros [? | (i & (j & [= -> ->] & Hne & Hj) & Hi)]; [by left | by right].
  - intros [? | (Ha & Hb & Hne)]; [by left | right].
    exists a. split; [| done]. by exists b.
Qed.

(** X13: over the objects of the list, where [=] is [is],
    [create_connections_full] appends exactly the pairs [(i, j)] of two
    objects of the list that are not one object, so each such pair in both
    directions.  It never pairs an object with itself; it does pair two
    different objects of equal value. *)
Theorem create_connections_full_pairs people (connections : list (Object * Object))
    (c : Object * Object) :
  c ∈ create_connections_full people connections
  ↔ c ∈ connections ∨ (c.1 ∈ people ∧ c.2 ∈ people ∧ ¬ is_ c.1 c.2).
Proof.
  rewrite elem_of_create_connections_full. unfold is_.
  by rewrite bool_decide_spec.
Qed.

End FullGenerator.

Section FullConnections.

Context `{Countable Person}.

Implicit Types (i j p q : Person) (people : list Person).

Lemma length_others people i :
  NoDup people → i ∈ people →
  S (length (filter (λ j, i ≠ j) people)) = length people.
Proof.
  induction 1 as [| j people Hj Hnd IH]; [by intros ?%elem_of_nil |].
  intros [-> | Hi]%elem_of_cons.
  - rewrite filter_cons_False by (by intros []). simpl. f_equal.
    clear IH. induction people as [| k people IH]; [done |].
    apply not_elem_of_cons in Hj as [Hne Hj]. apply NoDup_cons in Hnd as [_ Hnd].
    rewrite filter_cons_True by done. simpl. f_equal. by apply IH.
  - rewrite filter_cons_True by (by intros ->). simpl. f_equal. by apply IH.
Qed.

Lemma length_full_bind (initiators : list Person) people :
  NoDup people → (∀ i, i ∈ initiators → i ∈ people) →
  (length (initiators ≫= λ i, (λ j, (i, j)) <$> filter (λ j, i ≠ j) people)
   = length initiators * (length people - 1))%nat.
Proof.
  intros Hnd. induction initiators as [| i initiators IH]; intros Hin; [done |].
  rewrite bind_cons, length_app, length_fmap, IH by (intros; apply Hin; by right).
  pose proof (length_others people i Hnd (Hin i ltac:(left))). simpl. lia.
Qed.

(** X14: on [N] distinct people [create_connections_full] appends [N * (N - 1)]
    connections. *)
Theorem create_connections_full_count people (connections : list (Person * Person)) :
  NoDup people →
  length (create_connections_full people connections)
  = (length connections + length people * (length people - 1))%nat.
Proof.
  intros Hnd.
  by rewrite create_connections_full_bind, length_app, length_full_bind.
Qed.

End FullConnections.

(** Three distinct people give six connections. *)
Lemma create_connections_full_count_witness :
  length (create_connections_full ["A"; "B"; "C"] []) = (0 + 3 * (3 - 1))%nat.
Proof.
  apply (create_connections_full_count ["A"; "B"; "C"] []).
  exact (bool_decide_unpack (NoDup ["A"; "B"; "C"]) I).
Defined.

(** ** The network of the full generator *)

Section FullNetwork.

Context `{Countable Person}.

Implicit Types (i j p q : Person) (people : list Person).

Lemma get_friends_adj (self : SocialNetwork Person) p (temp : gset Person) q :
  well_formed (graph self) → get_friends self !! p = Some temp →
  q ∈ temp ↔ q ∈ adj (graph self) p ∧ q ≠ p.
Proof.
  intros HG Hp. unfold get_friends in Hp.
  rewrite (get_adjacency_dist _ _ _ _ _ HG Hp), <- dist_one. split.
  - intros (d & Hd & Hone). by replace 1%nat with d by lia.
  - intros Hd. by exists 1%nat.
Qed.

Lemma sum_over_ext (g h : Person → Z) (l : list Person) :
  (∀ i, i ∈ l → g i = h i) → sum_over g l = sum_over h l.
Proof.
  induction l as [| i l IH]; intros Hgh; simpl; [done |].
  rewrite (Hgh i) by left. rewrite IH; [done |]. intros; apply Hgh; by right.
Qed.

Lemma sum_over_scale (c : Z) (g : Person → Z) (l : list Person) :
  sum_over (λ i, c * g i) l = c * sum_over g l.
Proof. induction l as [| i l IH]; simpl; lia. Qed.

Lemma sum_over_one (l : list Person) : sum_over (λ _, 1) l = Z.of_nat (length l).
Proof. induction l as [| i l IH]; simpl; lia. Qed.

Lemma length_bind_sum {A} (g : Person → list A) (l : list Person) :
  Z.of_nat (length (l ≫= g)) = sum_over (λ i, Z.of_nat (length (g i))) l.
Proof.
  induction l as [| i l IH]; [done |].
  rewrite bind_cons, length_app. simpl. lia.
Qed.

Lemma filter_bind {A} (P : A → Prop) `{∀ x, Decision (P x)}
    (g : Person → list A) (l : list Person) :
  filter P (l ≫= g) = l ≫= λ i, filter P (g i).
Proof.
  induction l as [| i l IH]; [done |].
  by rewrite !bind_cons, filter_app, IH.
Qed.

Lemma length_initiated_by i p (js : list Person) :
  length (filter (λ e : Person * Person, e.1 = p) ((λ j, (i, j)) <$> js))
  = if decide (i = p) then length js else 0%nat.
Proof.
  induction js as [| j js IH]; [by case_decide |].
  rewrite fmap_cons, filter_cons. cbn [fst].
  destruct (decide (i = p)); cbn [length]; by rewrite IH.
Qed.

Lemma length_received_by i p (js : list Person) :
  length (filter (λ e : Person * Person, e.2 = p) ((λ j, (i, j)) <$> js))
  = length (filter (λ j, j = p) js).
Proof.
  induction js as [| j js IH]; [done |].
  rewrite fmap_cons, !filter_cons. cbn [snd].
  by destruct (decide (j = p)); cbn [length]; rewrite IH.
Qed.

Lemma length_occurrences_others i p people :
  length (filter (λ j, j = p) (filter (λ j, i ≠ j) people))
  = if decide (i = p) then 0%nat else length (filter (λ j, j = p) people).
Proof.
  induction people as [| j people IH]; [by case_decide |].
  destruct (decide (i = j)) as [<- | Hij].
  - rewrite (filter_cons_False (λ j, i ≠ j)) by (by intros []).
    rewrite IH. destruct (decide (i = p)) as [| Hip]; [done |].
    by rewrite (filter_cons_False (λ j, j = p)).
  - rewrite (filter_cons_True (λ j, i ≠ j)) by done.
    destruct (decide (j = p)) as [-> | Hjp].
    + rewrite !(filter_cons_True (λ j, j = p)) by done. cbn [length].
      rewrite IH. by destruct (decide (i = p)).
    + by rewrite !(filter_cons_False (λ j, j = p)).
Qed.

Lemma length_occurrences p people :
  NoDup people → p ∈ people → length (filter (λ j, j = p) people) = 1%nat.
Proof.
  induction 1 as [| j people Hj Hnd IH]; [by intros ?%elem_of_nil |].
  rewrite filter_cons. intros [-> | Hp]%elem_of_cons.
  - rewrite decide_True by done. simpl. f_equal.
    destruct (filter (λ j0, j0 = j) people) as [| x l] eqn:Hf; [done |].
    assert (x ∈ filter (λ j0, j0 = j) people) as [-> ?]%list_elem_of_filter
      by (rewrite Hf; left).
    done.
  - rewrite decide_False by (by intros ->). by apply IH.
Qed.

(** In the list of the full generator a person of a duplicate-free list
    starts [N - 1] connections and ends [N - 1]. *)
Lemma degree_full people p :
  NoDup people → p ∈ people →
  let edges := create_connections_full people [] in
  Z.of_nat (length (filter (λ e : Person * Person, e.1 = p) edges))
  + Z.of_nat (length (filter (λ e : Person * Person, e.2 = p) edges))
  = 2 * (Z.of_nat (length people) - 1).
Proof.
  intros Hnd Hp edges. unfold edges.
  rewrite create_connections_full_bind. simpl.
  rewrite !filter_bind, !length_bind_sum.
  pose proof (length_others people p Hnd Hp) as Hothers.
  rewrite (sum_over_ext _ (λ i, (Z.of_nat (length people) - 1)
                                * (if decide (p = i) then 1 else 0))).
  2:{ intros i Hi. rewrite length_initiated_by.
      destruct (decide (i = p)) as [-> | Hne].
      - rewrite decide_True by done. lia.
      - rewrite decide_False by done. lia. }
  rewrite (sum_over_ext (λ i, Z.of_nat (length (filter _ (_ <$> _))))
             (λ i, 1 + (-1) * (if decide (p = i) then 1 else 0))).
  2:{ intros i Hi. rewrite length_received_by, length_occurrences_others.
      destruct (decide (i = p)) as [-> | Hne].
      - rewrite decide_True by done. lia.
      - rewrite decide_False by done. rewrite length_occurrences by done. lia. }
  rewrite sum_over_plus, !sum_over_scale, sum_over_one, sum_over_indicator by done.
  rewrite decide_True by done. lia.
Qed.

Variables (persons : list Person) (rnd : random_source).

Let self := __init__ persons None (Some "full") rnd.

Lemma full_network_edges : _edge (graph self) = create_connections_full persons [].
Proof. unfold self. simpl. by rewrite populate_graph_edge. Qed.

Lemma full_network_nodes p : p ∈ _node (graph self) ↔ p ∈ persons.
Proof.
  unfold self. simpl. rewrite elem_of_populate_graph. split; [| by left].
  intros [? | (e & [Hnil | (? & ? & ?)]%elem_of_create_connections_full & [-> | ->])];
    [done | by apply elem_of_nil in Hnil.. | done | done].
Qed.

(** X15: built without connections under the governor "full", the network makes
    everybody a friend of everybody else: [get_friends] maps each person to
    the set of the other people, and has no other key. *)
Theorem full_network_friends p :
  get_friends self !! p
  = if decide (p ∈ persons) then Some (list_to_set persons ∖ {[p]}) else None.
Proof.
  pose proof (init_well_formed persons None (Some "full") rnd) as HG.
  fold self in HG.
  destruct (get_friends self !! p) as [temp |] eqn:Hp.
  - assert (p ∈ persons) as Hin.
    { apply full_network_nodes. unfold get_friends in Hp.
      rewrite get_adjacency_lookup in Hp. by case_decide. }
    rewrite decide_True by done. f_equal. apply set_eq. intros q.
    rewrite (get_friends_adj _ _ _ _ HG Hp), elem_of_adj, full_network_edges.
    rewrite !elem_of_create_connections_full, elem_of_difference,
      elem_of_list_to_set, elem_of_singleton. simpl.
    rewrite !elem_of_nil. naive_solver.
  - rewrite decide_False; [done |]. intros Hin%full_network_nodes.
    unfold get_friends in Hp. rewrite get_adjacency_lookup in Hp.
    by rewrite decide_True in Hp.
Qed.

(** X16: built on [N] distinct people under the governor "full", the network
    gives everybody the degree [2 * (N - 1)], every connection being there
    in both directions; so everybody is most popular and least popular. *)
Theorem full_network_degrees :
  NoDup persons → persons ≠ [] →
  degree (graph self)
  = map (λ p, (p, 2 * (Z.of_nat (length persons) - 1))) persons
  ∧ get_most_popular self = ret (list_to_set persons)
  ∧ get_least_popular self = ret (list_to_set persons).
Proof.
  intros Hnd Hne.
  assert (_node (graph self) = persons) as Hnodes.
  { unfold self. simpl. unfold populate_graph.
    rewrite add_edges_from_known; rewrite add_nodes_from_fresh by done; [done |].
    simpl. intros e [Hnil | (? & ? & ?)]%elem_of_create_connections_full; [| done].
    by apply elem_of_nil in Hnil. }
  assert (∀ p, p ∈ persons →
               degree_of (graph self) p = 2 * (Z.of_nat (length persons) - 1))
    as Hdeg.
  { intros p Hp. unfold degree_of. rewrite full_network_edges.
    by apply degree_full. }
  assert (_node (graph self) ≠ []) as Hne' by by rewrite Hnodes.
  split_and!.
  - unfold degree. rewrite Hnodes. apply map_ext_in.
    intros p Hp%list_elem_of_In. by rewrite Hdeg.
  - destruct (get_most_popular_spec self Hne') as (populars & -> & _ & Hmax).
    f_equal. apply set_eq. intros q. rewrite Hmax, Hnodes, elem_of_list_to_set.
    split; [tauto |]. intros Hq. split; [done |].
    intros n Hn. by rewrite !Hdeg.
  - destruct (get_least_popular_spec self Hne') as (unpopulars & -> & _ & Hmin).
    f_equal. apply set_eq. intros q. rewrite Hmin, Hnodes, elem_of_list_to_set.
    split; [tauto |]. intros Hq. split; [done |].
    intros n Hn. by rewrite !Hdeg.
Qed.

End FullNetwork.

(** Three distinct people under the governor "full": everybody has
    degree 4. *)
Lemma full_network_degrees_witness :
  degree (graph (__init__ ["A"; "B"; "C"] None (Some "full") no_draws))
  = map (λ p, (p, 2 * (Z.of_nat (length ["A"; "B"; "C"]) - 1))) ["A"; "B"; "C"]
  ∧ get_most_popular (__init__ ["A"; "B"; "C"] None (Some "full") no_draws)
    = ret (list_to_set ["A"; "B"; "C"])
  ∧ get_least_popular (__init__ ["A"; "B"; "C"] None (Some "full") no_draws)
    = ret (list_to_set ["A"; "B"; "C"]).
Proof.
  apply (full_network_degrees ["A"; "B"; "C"] no_draws).
  - exact (bool_decide_unpack (NoDup ["A"; "B"; "C"]) I).
  - discriminate.
Defined.

(** ** The random generator at the ends of its range *)

Section RandomEdgeCases.

Context `{Countable Person}.

Implicit Types (i j : Person) (people : list Person) (rnd : random_source).

Lemma create_connections_random_emitted people
    (connections : list (Person * Person)) rnd :
  create_connections_random people connections rnd
  = (connections ++ (generate_random people people rnd).1,
     (generate_random people people rnd).2).
Proof. apply create_connections_random_fold. Qed.

Lemma first_success_zero (partners : list Person) rnd :
  (∀ k, rnd k = 0) →
  (first_success partners rnd).1 = None
  ∧ ∀ k, (first_success partners rnd).2 k = 0.
Proof.
  revert rnd. induction partners as [| j partners IH]; intros rnd Hzero; simpl.
  - done.
  - rewrite Hzero. simpl. apply IH. intros k. apply Hzero.
Qed.

Lemma generate_random_zero (initiators : list Person) people rnd :
  (∀ k, rnd k = 0) → (generate_random initiators people rnd).1 = [].
Proof.
  revert rnd. induction initiators as [| i initiators IH]; intros rnd Hzero; simpl.
  - done.
  - unfold initiated.
    destruct (first_success_zero (candidates i people) rnd Hzero) as [Hnone Hzero'].
    destruct (first_success (candidates i people) rnd) as [[j |] rnd']; [done |].
    simpl in Hzero'. specialize (IH rnd' Hzero').
    by destruct (generate_random initiators people rnd') as [others rnd''].
Qed.

(** X17: when every draw is 0 no flip succeeds and [create_connections_random]
    leaves the list of connections as it found it. *)
Theorem create_connections_random_all_fail people
    (connections : list (Person * Person)) rnd :
  (∀ k, rnd k = 0) →
  (create_connections_random people connections rnd).1 = connections.
Proof.
  intros Hzero. rewrite create_connections_random_emitted. simpl.
  by rewrite generate_random_zero, app_nil_r.
Qed.

End RandomEdgeCases.

Section RandomExtremes.

Context {Object : Type} `{EqDecision Object}.

Implicit Types (i j : Object) (people : list Object) (rnd : random_source).

Lemma generate_random_nonzero (initiators : list Object) people rnd :
  (∀ k, rnd k ≠ 0) →
  (generate_random initiators people rnd).1
  = initiators ≫= λ i, first_partner i people.
Proof.
  revert rnd. induction initiators as [| i initiators IH]; intros rnd Hnz; [done |].
  rewrite bind_cons. simpl. unfold initiated, first_partner.
  destruct (candidates i people) as [| j partners]; simpl.
  - specialize (IH rnd Hnz).
    by destruct (generate_random initiators people rnd) as [others rnd''].
  - rewrite (proj2 (Z.eqb_neq _ _) (Hnz 0%nat)).
    specialize (IH (λ n, rnd (S n)) (λ k, Hnz (S k))).
    destruct (generate_random initiators people _) as [others rnd'']. simpl in *.
    by rewrite IH.
Qed.

(** X18: when no draw is 0 every first flip succeeds: each object of the
    list in turn is connected to the first object of the list that is not
    that very object (be it of equal value), and an object with no other
    object in the list to nothing. *)
Theorem create_connections_random_all_succeed people
    (connections : list (Object * Object)) rnd :
  (∀ k, rnd k ≠ 0) →
  (create_connections_random people connections rnd).1
  = connections ++ (people ≫= λ i, first_partner i people).
Proof.
  intros Hnz. rewrite create_connections_random_emitted. simpl.
  by rewrite generate_random_nonzero.
Qed.

Lemma candidates_alone i people :
  (∀ j, j ∈ people → i = j) → candidates i people = [].
Proof.
  intros Hsame. unfold candidates.
  induction people as [| j people IH]; [done |].
  rewrite filter_cons_False by (intros Hne; apply Hne, Hsame; left).
  apply IH. intros; apply Hsame; by right.
Qed.

Lemma generate_random_alone (initiators : list Object) people rnd :
  (∀ i j, i ∈ initiators → j ∈ people → i = j) →
  generate_random initiators people rnd = ([], rnd).
Proof.
  induction initiators as [| i initiators IH]; intros Hsame; [done |].
  simpl. unfold initiated.
  rewrite candidates_alone by (intros; apply Hsame; [left | done]). simpl.
  rewrite IH; [done |]. intros; apply Hsame; [by right | done].
Qed.

(** X19: when all the references of the list are to one object (an empty
    list, one object, or one object listed several times) neither
    generator creates a connection, and the random one makes no draw. *)
Theorem generators_need_two_objects people (connections : list (Object * Object)) rnd :
  (∀ i j, i ∈ people → j ∈ people → is_ i j) →
  create_connections_random people connections rnd = (connections, rnd)
  ∧ create_connections_full people connections = connections.
Proof.
  intros Hsame.
  assert (∀ i j, i ∈ people → j ∈ people → i = j) as Hone.
  { intros i j Hi Hj. exact (bool_decide_unpack _ (Hsame i j Hi Hj)). }
  split.
  - rewrite create_connections_random_emitted, generate_random_alone by done.
    simpl. by rewrite app_nil_r.
  - rewrite create_connections_full_bind.
    destruct (people ≫= _) as [| c l] eqn:Hbind; [by rewrite app_nil_r |].
    assert (c ∈ people ≫= (λ i, (λ j, (i, j)) <$> filter (λ j, i ≠ j) people))
      as (i & (j & _ & [Hne Hj]%list_elem_of_filter)%list_elem_of_fmap & Hi)%list_elem_of_bind
      by (rewrite Hbind; left).
    destruct Hne. by apply Hone.
Qed.

End RandomExtremes.

(** Three people and a source that only draws 0. *)
Lemma create_connections_random_all_fail_witness :
  (create_connections_random ["A"; "B"; "C"] [] no_draws).1 = [].
Proof.
  apply (create_connections_random_all_fail ["A"; "B"; "C"] [] no_draws).
  intros k. reflexivity.
Defined.

(** Two objects of equal value and a source that only draws 1: each is
    connected to the other, after one draw each. *)
Lemma create_connections_random_all_succeed_witness :
  (create_connections_random two_alices [] (λ _, 1)).1
  = [] ++ (two_alices ≫= λ i, first_partner i two_alices).
Proof.
  apply (create_connections_random_all_succeed two_alices [] (λ _, 1)).
  intros k. discriminate.
Defined.

Example first_partners_two_alices :
  (two_alices ≫= λ i, first_partner i two_alices)
  = [(("Alice", 0%nat), ("Alice", 1%nat)); (("Alice", 1%nat), ("Alice", 0%nat))].
Proof. reflexivity. Qed.

Example first_partners_three :
  (["A"; "B"; "C"] ≫= λ i, first_partner i ["A"; "B"; "C"])
  = [("A", "B"); ("B", "A"); ("C", "A")].
Proof. reflexivity. Qed.

(** One object listed twice. *)
Lemma generators_need_two_objects_witness :
  create_connections_random [("A", 0%nat); ("A", 0%nat)] [] no_draws = ([], no_draws)
  ∧ create_connections_full [("A", 0%nat); ("A", 0%nat)] [] = [].
Proof.
  apply (generators_need_two_objects [("A", 0%nat); ("A", 0%nat)] [] no_draws).
  intros i j Hi Hj.
  assert (∀ x : string * nat, x ∈ [("A", 0%nat); ("A", 0%nat)] → x = ("A", 0%nat))
    as Hall by set_solver.
  rewrite (Hall i Hi), (Hall j Hj). exact I.
Defined.

(** ** The network of the random generator *)

Section RandomNetwork.

Import Float.

(** A quotient that is at most the integer [k] has a floor of at most [k]
    after rounding, too. *)
Lemma floor_round_le (s c k : Z) :
  0 ≤ s → 0 < c → 0 ≤ k < 2 ^ 53 → s ≤ k * c → floor (round s c) ≤ k.
Proof.
  intros Hs Hc Hk Hle. unfold round.
  destruct (Z.eqb_spec s 0) as [-> | Hne].
  { unfold floor. simpl. lia. }
  pose proof (round_error_scaled s c ltac:(lia) Hc) as Herr.
  unfold round in Herr. rewrite (proj2 (Z.eqb_neq s 0)) in Herr by done.
  simpl in Herr. unfold floor. simpl.
  set (m := round_half_even _ _) in *. set (e := exponent s c) in *.
  unfold scaled_num, scaled_den in *.
  destruct (Z.leb_spec 0 e) as [He | He].
  - pose proof (Z.pow_pos_nonneg 2 e ltac:(lia) He) as Hpos.
    set (P := 2 ^ e) in *.
    assert (2 ^ 53 * ((m * P) * c - s) ≤ s) by lia.
    assert (2 ^ 53 * ((m * P) * c) ≤ (2 ^ 53 + 1) * (k * c)) by lia.
    assert (2 ^ 53 * (m * P) ≤ (2 ^ 53 + 1) * k) by nia.
    lia.
  - pose proof (Z.pow_pos_nonneg 2 (- e) ltac:(lia) ltac:(lia)) as Hpos.
    set (P := 2 ^ (- e)) in *.
    assert (2 ^ 53 * (m * c - s * P) ≤ s * P) by lia.
    assert (s * P ≤ k * c * P) by nia.
    assert (2 ^ 53 * (m * c) ≤ (2 ^ 53 + 1) * (k * P * c)) by lia.
    assert (2 ^ 53 * m ≤ (2 ^ 53 + 1) * (k * P)) by nia.
    assert (m < P * (k + 1)) by nia.
    assert (m / P < k + 1) by (by apply Z.div_lt_upper_bound).
    lia.
Qed.

Context `{Countable Person}.

Variables (persons : list Person) (gov : option string) (rnd : random_source).

Let self := __init__ persons None gov rnd.

(** X20: built on distinct people without connections, under no governor or
    under "random", the network is sparse: it has at most as many
    connections as people, each between two different people; its nodes are
    the people; the sum of the degrees is at most twice the number of
    people, and the average under "floor" is at most 2. *)
Theorem random_network_is_sparse :
  NoDup persons → persons ≠ [] → gov = None ∨ gov = Some "random" →
  (length (connections self) ≤ length persons)%nat
  ∧ (∀ e, e ∈ connections self → e.1 ∈ persons ∧ e.2 ∈ persons ∧ e.1 ≠ e.2)
  ∧ _node (graph self) = persons
  ∧ total_degree (graph self) ≤ 2 * Z.of_nat (length persons)
  ∧ ∃ k, get_average self (Some "floor") = ret (Int k) ∧ 0 ≤ k ≤ 2.
Proof.
  intros Hnd Hne Hgov.
  assert (connections self = (generate_random persons persons rnd).1) as Hconns.
  { unfold self, __init__.
    destruct Hgov as [-> | ->]; cbn -[create_connections_random];
      by rewrite create_connections_random_emitted. }
  assert (∀ e, e ∈ connections self → e.1 ∈ persons ∧ e.2 ∈ persons ∧ e.1 ≠ e.2)
    as Hends.
  { intros e. rewrite Hconns. apply elem_of_generate_random. }
  assert (length (connections self) ≤ length persons)%nat as Hlen.
  { rewrite Hconns. apply generate_random_length. }
  assert (_edge (graph self) = connections self) as Hedge.
  { unfold self. simpl. by rewrite populate_graph_edge. }
  assert (_node (graph self) = persons) as Hnodes.
  { unfold self. simpl. unfold populate_graph.
    rewrite add_edges_from_known; rewrite add_nodes_from_fresh by done; [done |].
    simpl. intros e He. destruct (Hends e) as (? & ? & _); done. }
  assert (total_degree (graph self) ≤ 2 * Z.of_nat (length persons)) as Htotal.
  { rewrite total_degree_edges, Hedge by apply init_well_formed. lia. }
  split_and!; [done.. |].
  assert (0 < Z.of_nat (length persons)) as Hcount.
  { destruct persons; [done | simpl; lia]. }
  pose proof (total_degree_nonneg (graph self)) as Hpos.
  rewrite get_average_quotient, Hnodes, truediv_nonneg by done.
  rewrite bool_decide_true by done.
  eexists. split; [done |]. split.
  - unfold floor.
    pose proof (round_mant_nonneg (total_degree (graph self))
                  (Z.of_nat (length persons)) Hpos Hcount) as Hm.
    destruct (Z.leb_spec 0 (expo (round (total_degree (graph self))
                                        (Z.of_nat (length persons))))).
    + apply Z.mul_nonneg_nonneg; [done |]. apply Z.pow_nonneg. lia.
    + apply Z.div_pos; [done |]. apply Z.pow_pos_nonneg; lia.
  - apply floor_round_le; [done.. | | lia]. split; [lia | done].
Qed.

End RandomNetwork.

(** Three distinct people and the draws 0, 1, 1, 0, 0, ... *)
Lemma random_network_is_sparse_witness :
  (length (connections network_drawn) ≤ 3)%nat
  ∧ _node (graph network_drawn) = ["A"; "B"; "C"]
  ∧ ∃ k, get_average network_drawn (Some "floor") = ret (Int k) ∧ 0 ≤ k ≤ 2.
Proof.
  destruct (random_network_is_sparse ["A"; "B"; "C"] None
              (λ k, match k with 1%nat | 2%nat => 1 | _ => 0 end))
    as (Hlen & _ & Hnodes & _ & Haverage).
  - exact (bool_decide_unpack (NoDup ["A"; "B"; "C"]) I).
  - discriminate.
  - by left.
  - by split_and!.
Defined.

(** ** Connections are undirected *)

Section Undirected.

Context `{Countable Person}.

Implicit Types (G : MultiGraph Person) (self : SocialNetwork Person) (p q : Person).

Lemma walk_same_adj G G' p k q :
  (∀ v w, w ∈ adj G v → w ∈ adj G' v) → walk G p k q → walk G' p k q.
Proof.
  intros Hadj. induction 1 as [| k r q _ IH Hq]; [apply walk_here |].
  eapply walk_step; [done | by apply Hadj].
Qed.

Lemma dist_same_adj G G' p q d :
  (∀ v w, w ∈ adj G v ↔ w ∈ adj G' v) → dist G p q d ↔ dist G' p q d.
Proof.
  intros Hadj. split; intros [Hw Hmin]; split.
  - eapply walk_same_adj; [| done]. intros v w. apply Hadj.
  - intros k Hk. apply Hmin. eapply walk_same_adj; [| done]. intros v w. apply Hadj.
  - eapply walk_same_adj; [| done]. intros v w. apply Hadj.
  - intros k Hk. apply Hmin. eapply walk_same_adj; [| done]. intros v w. apply Hadj.
Qed.

(** The adjacency by separation is determined by the set of nodes and by
    who is a neighbour of whom. *)
Lemma get_adjacency_same self self' (degree : Z) :
  well_formed (graph self) → well_formed (graph self') →
  (∀ p, p ∈ _node (graph self) ↔ p ∈ _node (graph self')) →
  (∀ v w, w ∈ adj (graph self) v ↔ w ∈ adj (graph self') v) →
  get_adjacency_with_separation_degree self degree
  = get_adjacency_with_separation_degree self' degree.
Proof.
  intros HG HG' Hnodes Hadj. apply map_eq. intros p.
  rewrite !get_adjacency_lookup.
  destruct (decide (p ∈ _node (graph self))) as [Hp | Hp].
  - rewrite decide_True by (by apply Hnodes). f_equal. apply set_eq. intros q.
    rewrite !elem_of_at_separation.
    split; intros (d & Hd & Hdeg); exists d; (split; [| done]).
    + apply single_source_shortest_path_length_spec; [done | by apply Hnodes |].
      apply (dist_same_adj _ _ _ _ _ Hadj).
      by apply single_source_shortest_path_length_spec in Hd.
    + apply single_source_shortest_path_length_spec; [done.. |].
      apply (dist_same_adj _ _ _ _ _ Hadj).
      apply single_source_shortest_path_length_spec in Hd; [done.. |].
      by apply Hnodes.
  - by rewrite decide_False by (by rewrite <- Hnodes).
Qed.

Variables (persons : list Person) (gov gov' : option string)
          (rnd rnd' : random_source).

(** X21: who is at which degree of separation depends only on which pairs of
    people are connected: two lists of connections that connect the same
    pairs, in whatever direction, order and number, give the same
    adjacency for every degree. *)
Theorem adjacency_depends_on_connected_pairs
    (given given' : list (Person * Person)) (degree : Z) :
  (∀ a b, ((a, b) ∈ given ∨ (b, a) ∈ given)
          ↔ ((a, b) ∈ given' ∨ (b, a) ∈ given')) →
  get_adjacency_with_separation_degree
    (__init__ persons (Some given) gov rnd) degree
  = get_adjacency_with_separation_degree
      (__init__ persons (Some given') gov' rnd') degree.
Proof.
  intros Hpairs. apply get_adjacency_same; [apply init_well_formed.. | |].
  - intros p. simpl. rewrite !elem_of_populate_graph.
    split; (intros [Hp | ([a b] & He & Hends)]; [by left | right]); simpl in *.
    + destruct (proj1 (Hpairs a b) (or_introl He)) as [He' | He'];
        eexists; (split; [exact He' |]); simpl; tauto.
    + destruct (proj2 (Hpairs a b) (or_introl He)) as [He' | He'];
        eexists; (split; [exact He' |]); simpl; tauto.
  - intros v w. simpl. rewrite !elem_of_adj, !populate_graph_edge. apply Hpairs.
Qed.

End Undirected.

(** A connection written once, and written twice in both directions. *)
Lemma adjacency_depends_on_connected_pairs_witness :
  get_adjacency_with_separation_degree
    (__init__ ["A"; "B"; "C"] (Some [("A", "B")]) None no_draws) 1
  = get_adjacency_with_separation_degree
      (__init__ ["A"; "B"; "C"] (Some [("B", "A"); ("A", "B")]) None no_draws) 1.
Proof.
  apply (adjacency_depends_on_connected_pairs
           ["A"; "B"; "C"] None None no_draws no_draws
           [("A", "B")] [("B", "A"); ("A", "B")] 1).
  intros a b. rewrite !elem_of_cons, !elem_of_nil. naive_solver.
Defined.

Section Reversed.

Context `{Countable Person}.

Implicit Types (G : MultiGraph Person) (self : SocialNetwork Person) (p q : Person).

Lemma filter_swap_fst p (es : list (Person * Person)) :
  length (filter (λ e : Person * Person, e.1 = p) (prod_swap <$> es))
  = length (filter (λ e : Person * Person, e.2 = p) es).
Proof.
  induction es as [| [a b] es IH]; [done |].
  rewrite fmap_cons, !filter_cons. cbn [prod_swap fst snd].
  by destruct (decide (b = p)); cbn [length]; rewrite IH.
Qed.

Lemma filter_swap_snd p (es : list (Person * Person)) :
  length (filter (λ e : Person * Person, e.2 = p) (prod_swap <$> es))
  = length (filter (λ e : Person * Person, e.1 = p) es).
Proof.
  induction es as [| [a b] es IH]; [done |].
  rewrite fmap_cons, !filter_cons. cbn [prod_swap fst snd].
  by destruct (decide (a = p)); cbn [length]; rewrite IH.
Qed.

Lemma length_remove_dups_le (l : list Person) :
  (length (remove_dups l) ≤ length l)%nat.
Proof.
  induction l as [| x l IH]; [done |]. simpl.
  destruct (decide_rel elem_of x l); simpl; lia.
Qed.

Lemma length_ends p (es : list (Person * Person)) :
  (length (omap (λ e : Person * Person,
                   if decide (e.1 = p) then Some e.2
                   else if decide (e.2 = p) then Some e.1 else None) es)
   ≤ length (filter (λ e : Person * Person, e.1 = p) es)
     + length (filter (λ e : Person * Person, e.2 = p) es))%nat.
Proof.
  set (f := λ e : Person * Person,
              if decide (e.1 = p) then Some e.2
              else if decide (e.2 = p) then Some e.1 else None).
  induction es as [| [a b] es IH]; [done |].
  assert (omap f ((a, b) :: es)
          = match f (a, b) with Some y => y :: omap f es | None => omap f es end)
    as -> by done.
  rewrite !filter_cons. unfold f at 1. cbn [fst snd].
  destruct (decide (a = p)), (decide (b = p)); cbn [length]; lia.
Qed.

(** The popularity sets are determined by the set of nodes and by their
    degrees. *)
Lemma popularity_same self self' :
  (∀ p, p ∈ _node (graph self) ↔ p ∈ _node (graph self')) →
  (∀ p, degree_of (graph self) p = degree_of (graph self') p) →
  get_most_popular self = get_most_popular self'
  ∧ get_least_popular self = get_least_popular self'.
Proof.
  intros Hnodes Hdeg.
  destruct (decide (_node (graph self) = [])) as [Hnil | Hne].
  - assert (_node (graph self') = []) as Hnil'.
    { destruct (_node (graph self')) as [| x l] eqn:Hl; [done |].
      assert (x ∈ _node (graph self)) as Hx by (apply Hnodes; left).
      rewrite Hnil in Hx. by apply elem_of_nil in Hx. }
    by rewrite !get_most_popular_empty, !get_least_popular_empty.
  - assert (_node (graph self') ≠ []) as Hne'.
    { intros Hnil'. destruct (_node (graph self)) as [| x l] eqn:Hl; [done |].
      assert (x ∈ _node (graph self')) as Hx by (apply Hnodes; left).
      rewrite Hnil' in Hx. by apply elem_of_nil in Hx. }
    destruct (get_most_popular_spec self Hne) as (s1 & -> & _ & Hs1).
    destruct (get_most_popular_spec self' Hne') as (s1' & -> & _ & Hs1').
    destruct (get_least_popular_spec self Hne) as (s2 & -> & _ & Hs2).
    destruct (get_least_popular_spec self' Hne') as (s2' & -> & _ & Hs2').
    split; f_equal; apply set_eq; intros q.
    + rewrite Hs1, Hs1', Hnodes. setoid_rewrite Hnodes. by setoid_rewrite Hdeg.
    + rewrite Hs2, Hs2', Hnodes. setoid_rewrite Hnodes. by setoid_rewrite Hdeg.
Qed.

Variables (persons : list Person) (given : list (Person * Person))
          (gov : option string) (rnd : random_source).

Let self := __init__ persons (Some given) gov rnd.
Let reversed := __init__ persons (Some (prod_swap <$> given)) gov rnd.

(** X22: writing every connection the other way round changes no degree, no
    popularity set and no average. *)
Theorem reversing_connections_changes_nothing :
  (∀ p, degree_of (graph self) p = degree_of (graph reversed) p)
  ∧ get_most_popular self = get_most_popular reversed
  ∧ get_least_popular self = get_least_popular reversed
  ∧ ∀ governor, get_average self governor = get_average reversed governor.
Proof.
  assert (∀ p, degree_of (graph self) p = degree_of (graph reversed) p) as Hdeg.
  { intros p. unfold degree_of, self, reversed. simpl.
    rewrite !populate_graph_edge, filter_swap_fst, filter_swap_snd.
    apply Z.add_comm. }
  assert (∀ p, p ∈ _node (graph self) ↔ p ∈ _node (graph reversed)) as Hnodes.
  { intros p. unfold self, reversed. simpl. rewrite !elem_of_populate_graph.
    split; (intros [Hp | ([a b] & He & Hends)]; [by left | right]); simpl in *.
    - exists (b, a). split; [| simpl; tauto].
      apply list_elem_of_fmap. by exists (a, b).
    - apply list_elem_of_fmap in He as ([a' b'] & [= -> ->] & He).
      exists (a', b'). split; [done | simpl; tauto]. }
  destruct (popularity_same self reversed Hnodes Hdeg) as [Hmost Hleast].
  split_and!; [done.. |].
  intros governor. rewrite !get_average_quotient.
  rewrite !total_degree_edges by apply init_well_formed.
  assert (length (_node (graph self)) = length (_node (graph reversed))) as ->.
  { apply Permutation_length, NoDup_Permutation; [apply init_well_formed.. | done]. }
  unfold self, reversed. simpl. by rewrite !populate_graph_edge, length_fmap.
Qed.

(** X23: a person has at most as many friends as its degree: a repeated
    connection and a connection to oneself add to the degree and not to
    the friends. *)
Theorem friends_at_most_degree p (temp : gset Person) :
  get_friends self !! p = Some temp →
  Z.of_nat (size temp) ≤ degree_of (graph self) p.
Proof.
  intros Hp.
  pose proof (init_well_formed persons (Some given) gov rnd) as HG. fold self in HG.
  assert (temp ⊆ list_to_set (adj (graph self) p)) as Hsub.
  { intros q Hq. apply elem_of_list_to_set.
    unfold get_friends in Hp.
    apply (get_adjacency_dist _ _ _ _ _ HG Hp) in Hq as (d & Hd & Hone).
    assert (d = 1%nat) as -> by lia. destruct Hd as [Hw _].
    inversion Hw as [| k r q' Hr Hadj]; subst. by apply walk_zero in Hr as ->. }
  apply subseteq_size in Hsub.
  rewrite size_list_to_set in Hsub by apply NoDup_remove_dups.
  assert (length (adj (graph self) p)
          ≤ length (filter (λ e : Person * Person, e.1 = p) (_edge (graph self)))
            + length (filter (λ e : Person * Person, e.2 = p) (_edge (graph self))))%nat
    as Hadj.
  { unfold adj. etrans; [apply length_remove_dups_le |]. apply length_ends. }
  unfold degree_of, connection in *. lia.
Qed.

End Reversed.

(** In [network_parallel] A has the two friends B and E and the degree 3,
    its connection to B being there twice. *)
Lemma friends_at_most_degree_witness :
  Z.of_nat (size ({["B"; "E"]} : gset string))
  ≤ degree_of (graph network_parallel) "A".
Proof.
  refine (friends_at_most_degree
            ["A"; "B"; "C"; "D"] [("A", "B"); ("A", "B"); ("E", "A")]
            None no_draws "A" {["B"; "E"]} _).
  vm_compute. reflexivity.
Defined.

(** * The constructor on objects

    [__init__] is the constructor on people that are their own objects.
    Whatever the objects, the network the class builds is one [__init__]
    builds from the values of the people and of the connections made; and
    when no two objects of the list are equal ([==]) without being one
    object, the generators make on the values the connections they make on
    the objects, so that [__init__] on the values is the class. *)

Section Objects.

Context `{Countable Person} {Object : Type} `{EqDecision Object}.

Variable node_of : Object → Person.

Implicit Types (i j : Object) (people : list Object) (rnd : random_source).

(** Every network of the class is a network with the connections given. *)
Lemma init_objects_supplied people supplied gov rnd :
  ∃ made : list (Person * Person),
    __init__objects node_of people supplied gov rnd
    = __init__ (node_of <$> people) (Some made) gov rnd.
Proof.
  exists (connections (__init__objects node_of people supplied gov rnd)).
  reflexivity.
Qed.

Lemma scan_partners_node_of i (js : list Object) (conns : list (Object * Object)) rnd :
  (∀ j, j ∈ js → node_of i = node_of j → i = j) →
  scan_partners (node_of i) (node_of <$> js) (prod_map node_of node_of <$> conns) rnd
  = (prod_map node_of node_of <$> (scan_partners i js conns rnd).1,
     (scan_partners i js conns rnd).2).
Proof.
  revert rnd. induction js as [| j js IH]; intros rnd Hinj; [done |].
  rewrite fmap_cons. cbn [scan_partners]. unfold is_.
  assert (∀ rnd, scan_partners (node_of i) (node_of <$> js)
                   (prod_map node_of node_of <$> conns) rnd
                 = (prod_map node_of node_of <$> (scan_partners i js conns rnd).1,
                    (scan_partners i js conns rnd).2)) as IH'.
  { intros rnd0. apply IH. intros j' Hj'. apply Hinj. by right. }
  destruct (decide (i = j)) as [-> | Hne].
  - rewrite !bool_decide_eq_true_2 by done. apply IH'.
  - rewrite !bool_decide_eq_false_2; [| done | intros Heq; apply Hne, Hinj; [left | done]].
    simpl. destruct (rnd 0%nat =? 0); [apply IH' |].
    simpl. by rewrite fmap_app.
Qed.

Lemma create_connections_random_node_of (initiators : list Object) people
    (conns : list (Object * Object)) rnd :
  (∀ i j, i ∈ initiators → j ∈ people → node_of i = node_of j → i = j) →
  foldl (λ st (p : Person), scan_partners p (node_of <$> people) st.1 st.2)
        (prod_map node_of node_of <$> conns, rnd) (node_of <$> initiators)
  = (prod_map node_of node_of
       <$> (foldl (λ st i, scan_partners i people st.1 st.2) (conns, rnd) initiators).1,
     (foldl (λ st i, scan_partners i people st.1 st.2) (conns, rnd) initiators).2).
Proof.
  revert conns rnd.
  induction initiators as [| i initiators IH]; intros conns rnd Hinj; [done |].
  rewrite fmap_cons. cbn [foldl fst snd].
  rewrite scan_partners_node_of by (intros j Hj; apply Hinj; [left | done]).
  destruct (scan_partners i people conns rnd) as [conns' rnd'].
  apply IH. intros i' j Hi'. apply Hinj. by right.
Qed.

Lemma full_partners_node_of i (js : list Object) (conns : list (Object * Object)) :
  (∀ j, j ∈ js → node_of i = node_of j → i = j) →
  foldl (λ conns (q : Person),
           if is_ (node_of i) q then conns else conns ++ [(node_of i, q)])
        (prod_map node_of node_of <$> conns) (node_of <$> js)
  = prod_map node_of node_of
      <$> foldl (λ conns j, if is_ i j then conns else conns ++ [(i, j)]) conns js.
Proof.
  revert conns. induction js as [| j js IH]; intros conns Hinj; [done |].
  rewrite fmap_cons. cbn [foldl]. unfold is_ at 2 4.
  destruct (decide (i = j)) as [-> | Hne].
  - rewrite !bool_decide_eq_true_2 by done. apply IH. intros; apply Hinj; [by right | done].
  - rewrite !bool_decide_eq_false_2; [| done | intros Heq; apply Hne, Hinj; [left | done]].
    rewrite <- IH by (intros; apply Hinj; [by right | done]).
    by rewrite fmap_app.
Qed.

Lemma create_connections_full_node_of (initiators : list Object) people
    (conns : list (Object * Object)) :
  (∀ i j, i ∈ initiators → j ∈ people → node_of i = node_of j → i = j) →
  foldl (λ conns (p : Person),
           foldl (λ conns q, if is_ p q then conns else conns ++ [(p, q)])
                 conns (node_of <$> people))
        (prod_map node_of node_of <$> conns) (node_of <$> initiators)
  = prod_map node_of node_of
      <$> foldl (λ conns i,
                   foldl (λ conns j, if is_ i j then conns else conns ++ [(i, j)])
                         conns people)
                conns initiators.
Proof.
  revert conns.
  induction initiators as [| i initiators IH]; intros conns Hinj; [done |].
  rewrite fmap_cons. cbn [foldl].
  rewrite full_partners_node_of by (intros j Hj; apply Hinj; [left | done]).
  apply IH. intros i' j Hi'. apply Hinj. by right.
Qed.

(** When people of the list that are equal are one object, the class is
    [__init__] on the values. *)
Lemma init_objects_identity people
    (supplied : option (list (Object * Object))) gov rnd :
  (∀ i j, i ∈ people → j ∈ people → node_of i = node_of j → i = j) →
  __init__objects node_of people supplied gov rnd
  = __init__ (node_of <$> people) (fmap (M := list) (prod_map node_of node_of) <$> supplied)
             gov rnd.
Proof.
  intros Hinj.
  pose proof (create_connections_random_node_of people people [] rnd Hinj) as Hrandom.
  pose proof (create_connections_full_node_of people people [] Hinj) as Hfull.
  unfold __init__objects, __init__.
  destruct supplied as [given |]; [done |]. cbn [fmap option_fmap option_map].
  unfold create_connections_random, create_connections_full in *.
  cbn [fmap list_fmap] in Hrandom, Hfull.
  destruct gov as [g |].
  - destruct (String.eqb g "random"); [by rewrite Hrandom |].
    destruct (String.eqb g "full"); [by rewrite Hfull | done].
  - by rewrite Hrandom.
Qed.

End Objects.

(** Two objects of equal value under the governor "full": the graph has the
    one node "Alice", with two self-loops, so of degree 4. *)
Example full_network_two_alices :
  degree (graph (__init__objects value_of two_alices None (Some "full") no_draws))
  = [("Alice", 4)].
Proof. reflexivity. Qed.

(** The same object listed twice, under either reading: no connection. *)
Example full_network_one_alice_twice :
  __init__objects value_of [("Alice", 0%nat); ("Alice", 0%nat)] None (Some "full") no_draws
  = __init__ ["Alice"; "Alice"] None (Some "full") no_draws
  ∧ degree (graph (__init__ ["Alice"; "Alice"] None (Some "full") no_draws))
    = [("Alice", 0)].
Proof. split; reflexivity. Qed.
